(** * Lesson content renderer of App.tsx: sectionizer, inline renderer,
      Python line tokenizer and colour-name lookup.

    Strings are ECMAScript strings: finite sequences of UTF-16 code units,
    modelled as [list N].  The functions below are transcribed from
    [TopicBlocks] and [normalize] in src/app/src/App.tsx. *)

From Stdlib Require Import NArith ZArith String Ascii.
From stdpp Require Import base list.
From Equations Require Import Equations.

Local Open Scope N_scope.

(** ** ECMAScript string primitives used by the source *)

Abbreviation jsstring := (list N).

Module JS.

(** A string literal of the source made of Basic Latin characters only. *)
Definition lit (s : string) : jsstring :=
  (λ a, N_of_ascii a) <$> list_ascii_of_string s.

Definition DQUOTE : N := 34.
Definition HASH : N := 35.
Definition SQUOTE : N := 39.
Definition DOT : N := 46.
Definition BACKSLASH : N := 92.
Definition BACKTICK : N := 96.

Definition between (lo hi c : N) : bool := (lo <=? c) && (c <=? hi).

(** [ch >= "0" && ch <= "9"] on a one-unit string, and the class [\d]. *)
Definition isDigit (c : N) : bool := between 48 57 c.

(** The class [[A-Za-z_]]. *)
Definition isIdentStart (c : N) : bool :=
  between 65 90 c || between 97 122 c || (c =? 95).

(** The class [\w] (no [i] or [u] flag): [[A-Za-z0-9_]]. *)
Definition isWordChar (c : N) : bool := isIdentStart c || isDigit c.

(** LineTerminator: LF, CR, LS, PS.  The regex atom [.] (no [s] flag)
    matches every code unit but these. *)
Definition isLineTerminator (c : N) : bool :=
  (c =? 10) || (c =? 13) || (c =? 8232) || (c =? 8233).

(** WhiteSpace and LineTerminator: what [String.prototype.trim] strips and
    what the class [\s] matches. *)
Definition isWhiteSpace (c : N) : bool :=
  between 9 13 c || (c =? 32) || (c =? 160) || (c =? 5760)
  || between 8192 8202 c || (c =? 8232) || (c =? 8233) || (c =? 8239)
  || (c =? 8287) || (c =? 12288) || (c =? 65279).

Fixpoint trimStart (s : jsstring) : jsstring :=
  match s with
  | c :: s' => if isWhiteSpace c then trimStart s' else s
  | [] => []
  end.

Definition trimEnd (s : jsstring) : jsstring :=
  reverse (trimStart (reverse s)).

Definition trim (s : jsstring) : jsstring := trimEnd (trimStart s).

(** Longest prefix of [s] inside the class [cls]: a greedy quantifier. *)
Fixpoint run (cls : N → bool) (s : jsstring) : nat :=
  match s with
  | c :: s' => if cls c then S (run cls s') else 0%nat
  | [] => 0%nat
  end.

Fixpoint startsWith (s p : jsstring) {struct p} : bool :=
  match p, s with
  | [], _ => true
  | a :: p', c :: s' => (c =? a) && startsWith s' p'
  | _ :: _, [] => false
  end.

Definition clamp (len x : Z) : nat :=
  Z.to_nat (if (x <? 0)%Z then Z.max (len + x) 0 else Z.min x len).

(** [s.slice(from, to)], negative arguments counted from the end. *)
Definition slice (s : jsstring) (from to : Z) : jsstring :=
  let len := Z.of_nat (length s) in
  let a := clamp len from in
  let b := clamp len to in
  take (b - a) (drop a s).

(** [s.slice(from)] *)
Definition sliceFrom (s : jsstring) (from : Z) : jsstring :=
  slice s from (Z.of_nat (length s)).

Fixpoint search (c : N) (s : jsstring) (i : Z) : Z :=
  match s with
  | x :: s' => if x =? c then i else search c s' (i + 1)
  | [] => (-1)%Z
  end.

(** [s.indexOf(c, from)] for a one-unit search string [c]. *)
Definition indexOf (s : jsstring) (c : N) (from : Z) : Z :=
  let k := Z.to_nat (Z.min (Z.max from 0) (Z.of_nat (length s))) in
  search c (drop k s) (Z.of_nat k).

(** The substring of [s] from index [a] (inclusive) to [b] (exclusive),
    as the regular-expression algorithms of the specification take it. *)
Definition substring (s : jsstring) (a b : nat) : jsstring :=
  take (b - a) (drop a s).

(** Backtracking of a greedy quantifier: the rest of the pattern, [k], is
    tried after [lo + span] repetitions, then [lo + span - 1], ..., then
    [lo]; the first success wins. *)
Fixpoint backtrack {A} (k : nat → option A) (lo span : nat) : option A :=
  match k (lo + span)%nat with
  | Some r => Some r
  | None =>
      match span with
      | S span' => backtrack k lo span'
      | O => None
      end
  end.

(** The assertion [\b] at index [i] of [s]. *)
Definition boundaryAt (s : jsstring) (i : nat) : bool :=
  let before :=
    match i with
    | O => false
    | S j => from_option isWordChar false (s !! j)
    end in
  xorb before (from_option isWordChar false (s !! i)).

(** The two locale- and Unicode-table-driven built-ins the source calls,
    [String.prototype.toLowerCase] and [String.prototype.normalize("NFD")].
    They belong to the host, not to the repository. *)
Class UnicodeOps := {
  toLowerCase : jsstring → jsstring;
  normalizeNFD : jsstring → jsstring
}.

(** A host for the texts of the course data: the two built-ins on Basic
    Latin and Latin-1 Supplement text, code unit by code unit.  Code units
    above U+00FF are left as they are by these tables, so the instance
    stands for the host on Latin-1 text only; statements about every text
    are made for every [UnicodeOps]. *)
Definition lowerUnit (c : N) : N :=
  if between 65 90 c then c + 32
  else if between 192 222 c && negb (c =? 215) then c + 32
  else c.

(** Canonical decomposition of the precomposed Latin-1 letters: base
    letter followed by one combining mark. *)
Definition decomposeUnit (c : N) : jsstring :=
  let mark (base m : N) := [base; m] in
  let vowel (base lo : N) :=
    if c - lo =? 0 then mark base 768
    else if c - lo =? 1 then mark base 769
    else if c - lo =? 2 then mark base 770
    else if c - lo =? 3 then mark base 771
    else mark base 776 in
  if between 192 196 c then vowel 65 192
  else if c =? 197 then mark 65 778
  else if c =? 199 then mark 67 807
  else if between 200 202 c then vowel 69 200
  else if c =? 203 then mark 69 776
  else if between 204 206 c then vowel 73 204
  else if c =? 207 then mark 73 776
  else if c =? 209 then mark 78 771
  else if between 210 214 c then vowel 79 210
  else if between 217 219 c then vowel 85 217
  else if c =? 220 then mark 85 776
  else if c =? 221 then mark 89 769
  else if between 224 228 c then vowel 97 224
  else if c =? 229 then mark 97 778
  else if c =? 231 then mark 99 807
  else if between 232 234 c then vowel 101 232
  else if c =? 235 then mark 101 776
  else if between 236 238 c then vowel 105 236
  else if c =? 239 then mark 105 776
  else if c =? 241 then mark 110 771
  else if between 242 246 c then vowel 111 242
  else if between 249 251 c then vowel 117 249
  else if c =? 252 then mark 117 776
  else if c =? 253 then mark 121 769
  else if c =? 255 then mark 121 776
  else [c].

#[export] Instance Latin1 : UnicodeOps := {|
  toLowerCase s := lowerUnit <$> s;
  normalizeNFD s := s ≫= decomposeUnit
|}.

End JS.

Import JS.

(** ** [normalize] (App.tsx, lines 77-87) *)

Section Normalize.
Context `{UnicodeOps}.

(** The loop keeps every code unit outside U+0300..U+036F. *)
Fixpoint stripMarks (s : jsstring) : jsstring :=
  match s with
  | code :: s' =>
      if (code <? 768) || (879 <? code) then code :: stripMarks s'
      else stripMarks s'
  | [] => []
  end.

Definition normalize (str : jsstring) : jsstring :=
  stripMarks (normalizeNFD (toLowerCase str)).

(** ** [ColorName] (lines 748-758) *)

Definition streq (a b : jsstring) : bool := bool_decide (a = b).

Definition ColorName (name : jsstring) : jsstring :=
  let n := normalize name in
  if streq n (lit "negro") then lit "text-slate-900"
  else if streq n (lit "naranja") then lit "text-orange-500"
  else if streq n (lit "azul") then lit "text-blue-500"
  else if streq n (lit "morado") then lit "text-violet-600"
  else if streq n (lit "rojo oscuro") then lit "text-red-800"
  else if streq n (lit "rojo claro") then lit "text-red-500"
  else if streq n (lit "verde") then lit "text-emerald-600"
  else lit "text-slate-900".

End Normalize.

(** The enumeration [ColorName] compares with. *)
Definition colorNames : list jsstring :=
  lit <$> [ "negro"; "naranja"; "azul"; "morado"; "rojo oscuro"; "rojo claro";
            "verde" ]%string.

(** ** [RichText] (lines 586-605) *)

(** The pattern [/`([^`]+)`/] tried at index [q] of [s]: on success, the
    length of the captured run; the match then ends at [q + k + 2]. *)
Definition execSpan (s : jsstring) (q : nat) : option nat :=
  match s !! q with
  | Some c =>
      if c =? BACKTICK then
        let rest := drop (S q) s in
        match run (λ x, negb (x =? BACKTICK)) rest with
        | O => None
        | S m =>
            backtrack
              (λ k, match rest !! k with
                    | Some d => if d =? BACKTICK then Some k else None
                    | None => None
                    end) 1 m
        end
      else None
  | None => None
  end.

(** [String.prototype.split] with a regular expression that has one capture
    group: [p] is the end of the last separator, [q] the index where the
    pattern is tried next.  The pieces and the captures alternate. *)
Equations? splitLoop (s : jsstring) (p q : nat) : list jsstring
  by wf (length s - q)%nat lt :=
  splitLoop s p q with decide (q < length s)%nat => {
    | right _ := [substring s p (length s)];
    | left _ with execSpan s q => {
        | None := splitLoop s p (S q);
        | Some k with decide (Nat.min (q + k + 2) (length s) = p) => {
            | left _ := splitLoop s p (S q);
            | right _ :=
                substring s p q :: substring s (q + 1) (q + 1 + k)
                :: splitLoop s (Nat.min (q + k + 2) (length s))
                               (Nat.min (q + k + 2) (length s)) } } }.
Proof. all: lia. Qed.

Definition split (raw : jsstring) : list jsstring := splitLoop raw 0 0.

Inductive Segment :=
| CodeSeg (seg : jsstring)
| TextSeg (seg : jsstring).

(** The children of the outer [<span>]: [<code>] at odd indices. *)
Definition RichText (text : jsstring) : list Segment :=
  let raw := text in
  let parts := split raw in
  imap (λ i seg, if (i mod 2 =? 1)%nat then CodeSeg seg else TextSeg seg) parts.

Definition isCode (sg : Segment) : bool :=
  match sg with
  | CodeSeg _ => true
  | TextSeg _ => false
  end.

(** The source text of a segment: a code segment gets its backticks back. *)
Definition segmentSource (sg : Segment) : jsstring :=
  match sg with
  | CodeSeg c => [BACKTICK] ++ c ++ [BACKTICK]
  | TextSeg t => t
  end.

Definition source (segs : list Segment) : jsstring := segs ≫= segmentSource.

(** The pieces of [split] put together again, the captures in backticks. *)
Fixpoint rejoin (parts : list jsstring) : jsstring :=
  match parts with
  | [] => []
  | p :: rest =>
      p ++ match rest with
           | [] => []
           | c :: rest' => [BACKTICK] ++ c ++ [BACKTICK] ++ rejoin rest'
           end
  end.

(** The segments by position: text and code in turn. *)
Fixpoint tagged (code : bool) (parts : list jsstring) : list Segment :=
  match parts with
  | [] => []
  | x :: rest => (if code then CodeSeg x else TextSeg x) :: tagged (negb code) rest
  end.

(** A text with complete code spans: each pair is a plain chunk and the code
    that follows it. *)
Definition spanSource (sp : jsstring * jsstring) : jsstring :=
  sp.1 ++ [BACKTICK] ++ sp.2 ++ [BACKTICK].

Definition spanSegments (sp : jsstring * jsstring) : list Segment :=
  [TextSeg sp.1; CodeSeg sp.2].

Definition wellFormedSpan (sp : jsstring * jsstring) : Prop :=
  (BACKTICK ∉ sp.1) ∧ (BACKTICK ∉ sp.2) ∧ sp.2 ≠ [].

(** ** [tokenizePythonLine] (lines 607-729) *)

Definition PY_KEYWORDS : list jsstring :=
  lit <$> [ "as"; "assert"; "break"; "class"; "continue"; "def"; "del";
            "elif"; "else"; "except"; "False"; "finally"; "for"; "from";
            "global"; "if"; "import"; "in"; "is"; "lambda"; "None";
            "nonlocal"; "not"; "or"; "pass"; "raise"; "return"; "True";
            "try"; "while"; "with"; "yield" ]%string.

Definition PY_BUILTINS : list jsstring :=
  lit <$> [ "print"; "len"; "range"; "int"; "float"; "str"; "list"; "dict";
            "set"; "tuple"; "input"; "type"; "help"; "sum" ]%string.

(** The first loop: the index of the [#] that opens the comment, or -1. *)
Fixpoint scanComment (rest : jsstring) (i : Z)
    (inSingle inDouble escaped : bool) : Z :=
  match rest with
  | [] => (-1)%Z
  | ch :: rest' =>
      if escaped then scanComment rest' (i + 1)%Z inSingle inDouble false
      else if ch =? BACKSLASH then
        scanComment rest' (i + 1)%Z inSingle inDouble true
      else if negb inDouble && (ch =? SQUOTE) then
        scanComment rest' (i + 1)%Z (negb inSingle) inDouble escaped
      else if negb inSingle && (ch =? DQUOTE) then
        scanComment rest' (i + 1)%Z inSingle (negb inDouble) escaped
      else if negb inSingle && negb inDouble && (ch =? HASH) then i
      else scanComment rest' (i + 1)%Z inSingle inDouble escaped
  end.

(** The tail [([^q\\]|\\.)*q] of a quoted-string alternative, read from just
    after the opening quote [q]: the number of code units up to and including
    the closing quote.  The three cases of an iteration exclude one another,
    and a shorter repetition never ends in front of [q], so the scan is the
    whole search. *)
Fixpoint stringBody (q : N) (rest : jsstring) : option nat :=
  match rest with
  | [] => None
  | c :: rest' =>
      if c =? q then Some 1%nat
      else if c =? BACKSLASH then
        match rest' with
        | d :: rest'' =>
            if isLineTerminator d then None
            else (λ n, S (S n)) <$> stringBody q rest''
        | [] => None
        end
      else S <$> stringBody q rest'
  end.

(** The alternatives of the token pattern, each tried at index [i] of [s];
    the result is the length of the match. *)

(** The two quoted-string alternatives, [q([^q\\]|\\.)*q] with [q] the
    double quote (first alternative) or the single quote (second). *)
Definition altString (q : N) (s : jsstring) (i : nat) : option nat :=
  match s !! i with
  | Some c => if c =? q then S <$> stringBody q (drop (S i) s) else None
  | None => None
  end.

(** [\b[A-Za-z_]\w*\b] *)
Definition altIdent (s : jsstring) (i : nat) : option nat :=
  if boundaryAt s i then
    match s !! i with
    | Some c =>
        if isIdentStart c then
          backtrack
            (λ k, if boundaryAt s (i + 1 + k) then Some (1 + k)%nat else None)
            0 (run isWordChar (drop (S i) s))
        else None
    | None => None
    end
  else None.

(** [(?:\.\d+)?\b] tried at index [j], after the integer part. *)
Definition altFraction (s : jsstring) (j : nat) : option nat :=
  let group :=
    match s !! j with
    | Some c =>
        if c =? DOT then
          match run isDigit (drop (S j) s) with
          | O => None
          | S m =>
              backtrack
                (λ k, if boundaryAt s (j + 1 + k) then Some (1 + k)%nat
                      else None) 1 m
          end
        else None
    | None => None
    end in
  match group with
  | Some n => Some n
  | None => if boundaryAt s j then Some 0%nat else None
  end.

(** [\b\d+(?:\.\d+)?\b] *)
Definition altNumber (s : jsstring) (i : nat) : option nat :=
  if boundaryAt s i then
    match run isDigit (drop i s) with
    | O => None
    | S m => backtrack (λ k, (λ n, (k + n)%nat) <$> altFraction s (i + k)) 1 m
    end
  else None.

(** [\s+] *)
Definition altSpace (s : jsstring) (i : nat) : option nat :=
  match run isWhiteSpace (drop i s) with
  | O => None
  | S m => Some (S m)
  end.

(** [.] *)
Definition altAny (s : jsstring) (i : nat) : option nat :=
  match s !! i with
  | Some c => if isLineTerminator c then None else Some 1%nat
  | None => None
  end.

Definition orElse {A} (a b : option A) : option A :=
  match a with
  | Some x => Some x
  | None => b
  end.

(** The whole pattern, anchored at index [i]: the first alternative that
    matches decides. *)
Definition execToken (s : jsstring) (i : nat) : option nat :=
  orElse (altString DQUOTE s i)
  (orElse (altString SQUOTE s i)
  (orElse (altIdent s i)
  (orElse (altNumber s i)
  (orElse (altSpace s i) (altAny s i))))).

Record RegExpMatch := { index : nat; m0 : jsstring }.

(** [matchAll] with the global flag: the search for the next match starts
    at [i] and moves one index on where the pattern does not match; after an
    empty match the iterator advances by one. *)
Equations? matchAllFrom (s : jsstring) (i : nat) : list RegExpMatch
  by wf (S (length s) - i)%nat lt :=
  matchAllFrom s i with decide (i ≤ length s)%nat => {
    | right _ := [];
    | left _ with execToken s i => {
        | None := matchAllFrom s (S i);
        | Some O := {| index := i; m0 := [] |} :: matchAllFrom s (S i);
        | Some (S n) :=
            {| index := i; m0 := substring s i (i + S n) |}
            :: matchAllFrom s (i + S n) } }.
Proof. all: lia. Qed.

Inductive TokenKind :=
| Whitespace | StringLiteral | NumericLiteral | Keyword | Builtin
| Plain | Comment.

(** The [<span>] of a token; the kind stands for its key prefix
    ([ws-], [s-], [n-], [k-], [b-], [t-], [c]). *)
Record Span := { kind : TokenKind; content : jsstring }.

Definition className (k : TokenKind) : option jsstring :=
  match k with
  | StringLiteral => Some (lit "text-emerald-300")
  | NumericLiteral => Some (lit "text-amber-300")
  | Keyword => Some (lit "text-orange-300")
  | Builtin => Some (lit "text-violet-300")
  | Comment => Some (lit "text-rose-300")
  | Whitespace | Plain => None
  end.

(** The callback of [tokens.map]; [None] is [null]. *)
Definition renderToken (t : jsstring) : option Span :=
  if (length t =? 0)%nat then None
  else if (length (trim t) =? 0)%nat then Some {| kind := Whitespace; content := t |}
  else if startsWith t [DQUOTE] || startsWith t [SQUOTE] then
    Some {| kind := StringLiteral; content := t |}
  else if from_option isDigit false (head t) then
    Some {| kind := NumericLiteral; content := t |}
  else if bool_decide (t ∈ PY_KEYWORDS) then
    Some {| kind := Keyword; content := t |}
  else if bool_decide (t ∈ PY_BUILTINS) then
    Some {| kind := Builtin; content := t |}
  else Some {| kind := Plain; content := t |}.

Definition commentAt (line : jsstring) : Z := scanComment line 0 false false false.

Definition codePart (line : jsstring) : jsstring :=
  if (commentAt line =? -1)%Z then line else slice line 0 (commentAt line).

Definition commentPart (line : jsstring) : jsstring :=
  if (commentAt line =? -1)%Z then [] else sliceFrom line (commentAt line).

Definition tokens (line : jsstring) : list jsstring :=
  m0 <$> matchAllFrom (codePart line) 0.

Definition tokenizePythonLine (line : jsstring) : list (option Span) :=
  let rendered := renderToken <$> tokens line in
  if (length (commentPart line) =? 0)%nat then rendered
  else rendered ++ [Some {| kind := Comment; content := commentPart line |}].

(** [CodeBlock]: carriage returns removed, then one line per line feed. *)
Fixpoint splitLines (cur : jsstring) (s : jsstring) : list jsstring :=
  match s with
  | [] => [reverse cur]
  | c :: s' => if c =? 10 then reverse cur :: splitLines [] s'
               else splitLines (c :: cur) s'
  end.

Definition CodeBlock (text : jsstring) : list (list (option Span)) :=
  let cleaned := filter (λ c, c ≠ 13) text in
  tokenizePythonLine <$> splitLines [] cleaned.

(** The matches tile [s] from index [from] on: each starts where the one
    before it ended, none is empty, and the last one ends where [s] ends. *)
Fixpoint tiled (s : jsstring) (from : nat) (ms : list RegExpMatch) : Prop :=
  match ms with
  | [] => from = length s
  | m :: ms' =>
      index m = from ∧ m0 m ≠ []
      ∧ m0 m = substring s from (from + length (m0 m))
      ∧ tiled s (from + length (m0 m)) ms'
  end.

(** A match of the token pattern is never empty and stays inside [s]. *)
Definition inside (s : jsstring) (i : nat) (r : option nat) : Prop :=
  ∀ n, r = Some n → (1 ≤ n ≤ length s - i)%nat.

(** The texts [ts] cover [line] from index [from] on, one after the other,
    without gap or overlap, and none of them is empty. *)
Fixpoint covers (line : jsstring) (from : nat) (ts : list jsstring) : Prop :=
  match ts with
  | [] => from = length line
  | t :: ts' =>
      t ≠ [] ∧ t = substring line from (from + length t)
      ∧ covers line (from + length t) ts'
  end.

(** The text a rendered entry shows; [null] shows nothing. *)
Definition spanText (o : option Span) : jsstring :=
  match o with
  | Some sp => content sp
  | None => []
  end.

(** The classification of a lexeme as the specification words it: the first
    rule that applies, in this order. *)
Definition classifyBySpec (t : jsstring) : TokenKind :=
  if forallb isWhiteSpace t then Whitespace
  else if from_option (λ c, (c =? DQUOTE) || (c =? SQUOTE)) false (head t)
  then StringLiteral
  else if from_option isDigit false (head t) then NumericLiteral
  else if bool_decide (t ∈ PY_KEYWORDS) then Keyword
  else if bool_decide (t ∈ PY_BUILTINS) then Builtin
  else Plain.

(** ** The block model and the sections fold (lines 10-18, 760-811) *)

Inductive TopicBlock :=
| BlockH (text : jsstring)
| BlockP (text : jsstring)
| BlockUl (items : list jsstring)
| BlockOl (items : list jsstring)
| BlockCode (text : jsstring)
| BlockCallout (title : option jsstring) (text : jsstring)
| BlockTable (headers : list jsstring) (rows : list (list jsstring))
| BlockImg (src alt : jsstring) (caption : option jsstring).

Record SectionObj := { title : jsstring; blocks : list TopicBlock }.

(** The loop [for (i = 0; i < a.length; i += 1)] of [isSubHeading]. *)
Fixpoint allDigits (a : jsstring) : bool :=
  match a with
  | ch :: a' => if (ch <? 48) || (57 <? ch) then false else allDigits a'
  | [] => true
  end.

Definition isSubHeading (t : jsstring) : bool :=
  let s := trim t in
  let d1 := indexOf s DOT 0 in
  if (d1 <=? 0)%Z then false
  else
    let d2 := indexOf s DOT (d1 + 1) in
    if (d2 <=? d1 + 1)%Z then false
    else
      let a := slice s 0 d1 in
      let b := slice s (d1 + 1) d2 in
      if (length a =? 0)%nat || (length b =? 0)%nat then false
      else if negb (allDigits a) then false
      else if negb (allDigits b) then false
      else true.

Section Sectionizer.
Context `{UnicodeOps}.

Definition isExerciseHeading (t : jsstring) : bool :=
  let s := toLowerCase (trim t) in
  if negb (startsWith s (lit "ejercicio")) then false
  else
    let rest := trim (sliceFrom s (Z.of_nat (length (lit "ejercicio")))) in
    match rest with
    | [] => false
    | r0 :: _ => (48 <=? r0) && (r0 <=? 57)
    end.

(** The two variables the callback of [blocks.forEach] closes over.
    [current] is an alias of an element of [sections]: it is kept as the
    index of that element. *)
Record Store := { sections : list SectionObj; current : option nat }.

Definition emptyStore : Store := {| sections := []; current := None |}.

(** [current = { title, blocks: [] }; sections.push(current)] *)
Definition pushSection (ttl : jsstring) (st : Store) : Store :=
  {| sections := sections st ++ [{| title := ttl; blocks := [] |}];
     current := Some (length (sections st)) |}.

(** [if (!current)]: a section with the empty title is created and
    pushed. *)
Definition ensureCurrent (st : Store) : Store :=
  match current st with
  | None => pushSection [] st
  | Some _ => st
  end.

(** [current.blocks.push(b)]: the write goes through the alias. *)
Definition pushBlock (b : TopicBlock) (st : Store) : Store :=
  match current st with
  | Some i =>
      {| sections :=
           alter (λ sec, {| title := title sec; blocks := blocks sec ++ [b] |})
                 i (sections st);
         current := Some i |}
  | None => st
  end.

(** The callback of [blocks.forEach]; [None] is an entry that is not an
    object ([if (!b) return]). *)
Definition visit (st : Store) (b : option TopicBlock) : Store :=
  match b with
  | None => st
  | Some (BlockH text as blk) =>
      let t := trim text in
      if isSubHeading t || isExerciseHeading t then
        pushBlock blk (ensureCurrent st)
      else pushSection text st
  | Some blk => pushBlock blk (ensureCurrent st)
  end.

Definition forEach (bs : list (option TopicBlock)) (st : Store) : Store :=
  foldl visit st bs.

(** The [sections] array once the fold is over. *)
Definition sectionize (bs : list (option TopicBlock)) : list SectionObj :=
  sections (forEach bs emptyStore).

End Sectionizer.

(** ** The fold and the heading patterns restated on lists *)

Section SectionizerSpec.
Context `{UnicodeOps}.

(** A heading that opens a section: neither pattern applies. *)
Definition isTopLevel (b : TopicBlock) : bool :=
  match b with
  | BlockH text =>
      negb (isSubHeading (trim text) || isExerciseHeading (trim text))
  | _ => false
  end.

Definition headingText (b : TopicBlock) : jsstring :=
  match b with
  | BlockH text => text
  | _ => []
  end.

(** A section written back as blocks: its title as a heading, then its
    blocks. *)
Definition withHeading (sec : SectionObj) : list TopicBlock :=
  BlockH (title sec) :: blocks sec.

(** The sections written back as one block sequence; [anon] tells that the
    first section was opened without a heading. *)
Definition unsection (anon : bool) (secs : list SectionObj) : list TopicBlock :=
  match secs with
  | [] => []
  | sec :: rest =>
      (if anon then blocks sec else withHeading sec) ++ (rest ≫= withHeading)
  end.

(** The input does not start with a top-level heading. *)
Definition leadingAnon (bs : list TopicBlock) : bool :=
  match bs with
  | b :: _ => negb (isTopLevel b)
  | [] => false
  end.

(** The block joins the last section; a section with the empty title is
    opened for it where there is none. *)
Definition appendToCurrent (secs : list SectionObj) (b : TopicBlock)
  : list SectionObj :=
  match secs with
  | [] => [{| title := []; blocks := [b] |}]
  | _ =>
      alter (λ sec, {| title := title sec; blocks := blocks sec ++ [b] |})
            (length secs - 1)%nat secs
  end.

(** What one more block does to the array of sections. *)
Definition snocBlock (secs : list SectionObj) (b : TopicBlock) : list SectionObj :=
  if isTopLevel b then secs ++ [{| title := headingText b; blocks := [] |}]
  else appendToCurrent secs b.

(** A section with the empty title can only be the first one. *)
Definition emptyTitleOnlyFirst (secs : list SectionObj) : Prop :=
  ∀ i sec, secs !! i = Some sec → title sec = [] → i = 0%nat.

(** [current] is the last element of [sections], if any. *)
Definition aliased (st : Store) : Prop :=
  current st =
    match length (sections st) with
    | O => None
    | S n => Some n
    end.

End SectionizerSpec.

(** The text starts with two runs of digits, each followed by a dot. *)
Definition SubHeadingShape (s : jsstring) : Prop :=
  ∃ a b rest, s = a ++ DOT :: b ++ DOT :: rest
              ∧ a ≠ [] ∧ b ≠ [] ∧ allDigits a = true ∧ allDigits b = true.

(** The pattern as the specification words it: two non-empty runs of digits
    with one dot between them, nothing asked of what follows. *)
Definition DigitsDotDigits (s : jsstring) : Prop :=
  ∃ a b rest, s = a ++ DOT :: b ++ rest
              ∧ a ≠ [] ∧ b ≠ [] ∧ allDigits a = true ∧ allDigits b = true.

(** The lower-cased text is the word, then white space (possibly none), then
    a digit. *)
Definition ExerciseShape (s : jsstring) : Prop :=
  ∃ w d tl, s = lit "ejercicio" ++ w ++ d :: tl
            ∧ forallb isWhiteSpace w = true ∧ isDigit d = true.

(** The rule as the specification words it: at least one white-space
    character between the word and the digit. *)
Definition ExerciseBySpec (s : jsstring) : Prop :=
  ∃ w d tl, s = lit "ejercicio" ++ w ++ d :: tl
            ∧ w ≠ [] ∧ forallb isWhiteSpace w = true ∧ isDigit d = true.

(** ** [CodeBlock] (lines 731-746): what the [<code>] element shows *)

Definition LF : N := 10.

(** [cleaned.split(String.fromCharCode(10))] after the carriage returns are
    taken out. *)
Definition codeBlockLines (text : jsstring) : list jsstring :=
  splitLines [] (filter (λ c, c ≠ 13) text).

(** The children of [<code>]: for each line its tokens, then a line feed
    unless the line is the last one. *)
Definition codeBlockText (text : jsstring) : jsstring :=
  let lines := codeBlockLines text in
  concat
    (imap (λ idx ln,
             concat (spanText <$> tokenizePythonLine ln)
             ++ (if (Z.of_nat idx <? Z.of_nat (length lines) - 1)%Z
                 then [LF] else []))
          lines).

(** The pieces of a text joined again with [sep] between them. *)
Fixpoint joinWith (sep : N) (parts : list jsstring) : jsstring :=
  match parts with
  | [] => []
  | [p] => p
  | p :: rest => p ++ sep :: joinWith sep rest
  end.

(** ** The course catalogue (lines 8-37, 89-109) *)

Inductive Cycle := DAM | DAW | ASIR | SMR.

Global Instance Cycle_eq_dec : EqDecision Cycle.
Proof. solve_decision. Defined.

(** [CycleId]: the string all, or a cycle. *)
Inductive CycleId :=
| CycleAll
| CycleOf (c : Cycle).

Record Topic := {
  topicId : jsstring;
  topicTitle : jsstring;
  topicBody : jsstring;
  pageBlocks : option (list TopicBlock)
}.

Record Course := {
  courseId : jsstring;
  courseTitle : jsstring;
  cycles : option (list Cycle);
  cycle : option Cycle;
  image : option jsstring;
  inConstruction : option bool;
  objectives : option (list jsstring);
  recommendations : option (list jsstring);
  topics : option (list Topic)
}.

Definition getCycles (course : Course) : list Cycle :=
  match cycles course with
  | Some (c :: cs) => c :: cs
  | _ =>
      match cycle course with
      | Some c => [c]
      | None => []
      end
  end.

(** [course.inConstruction !== false] *)
Definition isInConstructionCourse (course : Course) : bool :=
  match inConstruction course with
  | Some false => false
  | _ => true
  end.

(** [s.includes(q)] *)
Fixpoint includes (s q : jsstring) : bool :=
  startsWith s q
  || match s with
     | _ :: s' => includes s' q
     | [] => false
     end.

(** An entry of [COURSES] that gives an identifier, a title and its cycles
    only, as most entries do. *)
Definition plainCourse (id ttl : jsstring) (cs : option (list Cycle))
    (cy : option Cycle) : Course :=
  {| courseId := id; courseTitle := ttl; cycles := cs; cycle := cy;
     image := None; inConstruction := None; objectives := None;
     recommendations := None; topics := None |}.

Section Catalogue.
Context `{UnicodeOps}.

(** The callback of [courses.filter]. *)
Definition keepCourse (q : jsstring) (cy : CycleId) (c : Course) : bool :=
  match cy with
  | CycleOf wanted =>
      if bool_decide (wanted ∈ getCycles c) then
        if (length q =? 0)%nat then true else includes (normalize (courseTitle c)) q
      else false
  | CycleAll =>
      if (length q =? 0)%nat then true else includes (normalize (courseTitle c)) q
  end.

Definition filterCourses (courses : list Course) (query : jsstring) (cy : CycleId)
  : list Course :=
  let q := trim (normalize query) in
  filter (λ c, keepCourse q cy c = true) courses.

End Catalogue.

(** ** [hashStr] and the geometry of [courseImageDataUri] (lines 122-156) *)

(** ToInt32 and ToUint32 of an integral Number. *)
Definition toInt32 (z : Z) : Z := ((z + 2 ^ 31) mod 2 ^ 32 - 2 ^ 31)%Z.
Definition toUint32 (z : Z) : Z := (z mod 2 ^ 32)%Z.

(** [Math.imul] *)
Definition imul (a b : Z) : Z := toInt32 (toUint32 a * toUint32 b).

(** [a ^ b] *)
Definition bitXor (a b : Z) : Z := Z.lxor (toInt32 a) (toInt32 b).

(** [a >>> k] for [0 <= k < 32] *)
Definition ushr (a k : Z) : Z := Z.shiftr (toUint32 a) k.

(** The body of the loop: [h ^= str.charCodeAt(i); h = Math.imul(h, 16777619)]. *)
Definition hashStep (h : Z) (c : N) : Z :=
  imul (bitXor h (Z.of_N c)) 16777619.

Definition hashStr (str : jsstring) : Z :=
  ushr (foldl hashStep 2166136261%Z str) 0.

(** FNV-1a on 32 bits as it is usually written, on unsigned words. *)
Definition fnv1a (str : jsstring) : Z :=
  foldl (λ h c, (Z.lxor h (Z.of_N c) * 16777619) mod 2 ^ 32)%Z 2166136261%Z str.

Definition cycleName (c : Cycle) : jsstring :=
  match c with
  | DAM => lit "DAM"
  | DAW => lit "DAW"
  | ASIR => lit "ASIR"
  | SMR => lit "SMR"
  end.

(** [getCycles(course)[0] || ""] *)
Definition primaryCycle (course : Course) : jsstring :=
  match getCycles course with
  | c :: _ => cycleName c
  | [] => []
  end.

Definition cycleAccent (cy : jsstring) : jsstring * jsstring :=
  if streq cy (lit "DAM") then (lit "#6366F1", lit "#22C55E")
  else if streq cy (lit "DAW") then (lit "#0EA5E9", lit "#6366F1")
  else if streq cy (lit "ASIR") then (lit "#F59E0B", lit "#EF4444")
  else if streq cy (lit "SMR") then (lit "#10B981", lit "#0EA5E9")
  else (lit "#64748B", lit "#94A3B8").

Definition seedOf (course : Course) : Z :=
  hashStr (courseId course ++ lit "|" ++ courseTitle course ++ lit "|"
           ++ primaryCycle course).

(** The numbers [courseImageDataUri] writes into the picture; [%] is the
    remainder that takes the sign of the dividend. *)
Record Geometry := {
  c1x : Z; c1y : Z; c1r : Z;
  c2x : Z; c2y : Z; c2r : Z;
  c3x : Z; c3y : Z; c3r : Z;
  w1 : Z; w2 : Z; w3 : Z
}.

Definition geometry (seed : Z) : Geometry := {|
  c1x := 820 + Z.rem seed 320;
  c1y := 120 + Z.rem (ushr seed 8) 180;
  c1r := 190 + Z.rem (ushr seed 16) 140;
  c2x := 180 + Z.rem (ushr seed 4) 360;
  c2y := 520 + Z.rem (ushr seed 12) 160;
  c2r := 210 + Z.rem (ushr seed 20) 160;
  c3x := 560 + Z.rem (ushr seed 6) 320;
  c3y := 320 + Z.rem (ushr seed 14) 220;
  c3r := 180 + Z.rem (ushr seed 22) 140;
  w1 := 470 + Z.rem seed 90;
  w2 := 590 + Z.rem (ushr seed 10) 90;
  w3 := 520 + Z.rem (ushr seed 18) 90
|}%Z.

(** ** [parseHash] and the routes of [App] (unnamed part, lines 244-253,
       725-730) *)

(** [s.split(sep)] for a one-unit separator; [cur] is the piece being read,
    last unit first. *)
Fixpoint splitOn (sep : N) (cur : jsstring) (s : jsstring) : list jsstring :=
  match s with
  | [] => [reverse cur]
  | c :: s' => if c =? sep then reverse cur :: splitOn sep [] s'
               else splitOn sep (c :: cur) s'
  end.

Definition SLASH : N := 47.

(** [hash.replace(/^#\/?/, empty)] *)
Definition stripHashPrefix (hash : jsstring) : jsstring :=
  match hash with
  | c :: rest =>
      if c =? HASH then
        match rest with
        | d :: rest' => if d =? SLASH then rest' else rest
        | [] => rest
        end
      else hash
  | [] => hash
  end.

Inductive Route :=
| CatalogView
| CourseView (courseId : jsstring)
| TopicView (courseId topicId : jsstring).

(** A string operand of [&&]: the empty string and [undefined] are falsy. *)
Definition truthy (x : option jsstring) : bool :=
  match x with
  | Some (_ :: _) => true
  | _ => false
  end.

Definition parseHash (hash : jsstring) : Route :=
  let clean := stripHashPrefix hash in
  let parts := filter (λ p, p ≠ []) (splitOn SLASH [] clean) in
  if (length parts =? 0)%nat then CatalogView
  else if bool_decide (parts !! 0%nat = Some (lit "course")) && truthy (parts !! 1%nat)
  then
    if bool_decide (parts !! 2%nat = Some (lit "topic")) && truthy (parts !! 3%nat)
    then TopicView (default [] (parts !! 1%nat)) (default [] (parts !! 3%nat))
    else CourseView (default [] (parts !! 1%nat))
  else CatalogView.

(** The fragments [openCourse] and [openTopic] set. *)
Definition courseRoute (id : jsstring) : jsstring := lit "/course/" ++ id.

Definition topicRoute (courseId topicId : jsstring) : jsstring :=
  lit "/course/" ++ courseId ++ lit "/topic/" ++ topicId.

(** ** Shapes of code text used to state facts about the tokenizer *)

(** A code unit the first loop of [tokenizePythonLine] reads without
    changing its state. *)
Definition plainUnit (c : N) : Prop :=
  c ≠ BACKSLASH ∧ c ≠ SQUOTE ∧ c ≠ DQUOTE ∧ c ≠ HASH.

(** ** Places of the output of [tokenizePythonLine] *)

(** An entry of the output, or its end, starts right behind the text [pre]:
    the entries before it show [pre] and nothing else. *)
Definition tokenStart (line pre : jsstring) : Prop :=
  ∃ ts1 ts2, tokenizePythonLine line = ts1 ++ ts2
             ∧ concat (spanText <$> ts1) = pre.

(** [tok] is an entry of the output; the entries before it show [pre] and
    the entries after it show [post]. *)
Definition tokenAfter (line pre : jsstring) (tok : Span) (post : jsstring) : Prop :=
  ∃ ts1 ts2, tokenizePythonLine line = ts1 ++ Some tok :: ts2
             ∧ concat (spanText <$> ts1) = pre
             ∧ concat (spanText <$> ts2) = post.

(** * Facts about the string primitives *)

Section StringFacts.
Implicit Types (s t w : jsstring) (c d : N).

Lemma trimStart_split s :
  ∃ w, s = w ++ trimStart s ∧ forallb isWhiteSpace w = true.
Proof.
  induction s as [|c s IH]; simpl.
  - by exists [].
  - destruct (isWhiteSpace c) eqn:Hc.
    + destruct IH as (w & Hw & Hall). exists (c :: w). simpl.
      rewrite Hc, Hall. by rewrite <- Hw.
    + by exists [].
Qed.

Lemma trimStart_head c s : isWhiteSpace c = false → trimStart (c :: s) = c :: s.
Proof. intros Hc. simpl. by rewrite Hc. Qed.

Lemma trimStart_ws w s :
  forallb isWhiteSpace w = true → trimStart (w ++ s) = trimStart s.
Proof.
  induction w as [|c w IH]; simpl; [done|].
  intros [Hc Hw]%andb_prop. rewrite Hc. auto.
Qed.

Lemma trimStart_stable s :
  match trimStart s with
  | [] => True
  | c :: _ => isWhiteSpace c = false
  end.
Proof.
  induction s as [|c s IH]; simpl; [done|].
  destruct (isWhiteSpace c) eqn:Hc; [done|]. exact Hc.
Qed.

Lemma trimStart_idem s : trimStart (trimStart s) = trimStart s.
Proof.
  pose proof (trimStart_stable s) as Hs.
  destruct (trimStart s) as [|c r]; [done|]. by apply trimStart_head.
Qed.

Lemma trimStart_snoc s c :
  isWhiteSpace c = false → ∃ r, trimStart (s ++ [c]) = r ++ [c].
Proof.
  intros Hc. induction s as [|x s IH]; simpl.
  - rewrite Hc. by exists [].
  - destruct (isWhiteSpace x); [done|]. by exists (x :: s).
Qed.

Lemma trimEnd_head c s :
  isWhiteSpace c = false → ∃ r, trimEnd (c :: s) = c :: r.
Proof.
  intros Hc. unfold trimEnd. rewrite reverse_cons.
  destruct (trimStart_snoc (reverse s) c Hc) as [r ->].
  exists (reverse r). by rewrite reverse_app.
Qed.

Lemma trimEnd_prefix s : ∃ w, s = trimEnd s ++ w.
Proof.
  unfold trimEnd. destruct (trimStart_split (reverse s)) as (w & Hw & _).
  exists (reverse w). rewrite <- reverse_app, <- Hw. by rewrite reverse_involutive.
Qed.

Lemma trimEnd_idem s : trimEnd (trimEnd s) = trimEnd s.
Proof. unfold trimEnd. by rewrite reverse_involutive, trimStart_idem. Qed.

Lemma trim_idem s : trim (trim s) = trim s.
Proof.
  unfold trim. pose proof (trimStart_stable s) as Hs.
  destruct (trimStart s) as [|c r] eqn:E; [done|].
  destruct (trimEnd_head c r Hs) as [r' Hr]. rewrite Hr.
  rewrite (trimStart_head _ _ Hs). rewrite <- Hr. apply trimEnd_idem.
Qed.

(** [t.trim().length === 0] holds exactly for the runs of white space. *)
Lemma trim_empty s :
  (length (trim s) =? 0)%nat = forallb isWhiteSpace s.
Proof.
  unfold trim. destruct (trimStart_split s) as (w & Hw & Hall).
  pose proof (trimStart_stable s) as Hs.
  destruct (trimStart s) as [|c r] eqn:E.
  - rewrite app_nil_r in Hw. subst w. by rewrite Hall.
  - destruct (trimEnd_head c r Hs) as [r' ->]. simpl.
    rewrite Hw, forallb_app. simpl. rewrite Hs. simpl.
    by rewrite andb_false_r.
Qed.

(** A trimmed string that starts with the code unit [c]. *)
Lemma trim_cons s c r :
  trim s = c :: r →
  ∃ w tl, s = w ++ c :: tl ∧ forallb isWhiteSpace w = true
          ∧ isWhiteSpace c = false.
Proof.
  unfold trim. intros Ht.
  destruct (trimStart_split s) as (w & Hw & Hall).
  destruct (trimEnd_prefix (trimStart s)) as [w2 Hw2].
  pose proof (trimStart_stable s) as Hs.
  rewrite Ht in Hw2. rewrite Hw2 in Hw, Hs. simpl in *.
  exists w, (r ++ w2). done.
Qed.

Lemma trim_ws_cons w c tl :
  forallb isWhiteSpace w = true → isWhiteSpace c = false →
  ∃ r, trim (w ++ c :: tl) = c :: r.
Proof.
  intros Hw Hc. unfold trim. rewrite (trimStart_ws _ _ Hw).
  rewrite (trimStart_head _ _ Hc). by apply trimEnd_head.
Qed.

Lemma isDigit_not_ws c : isDigit c = true → isWhiteSpace c = false.
Proof.
  unfold isDigit, isWhiteSpace, between. intros Hd.
  apply andb_prop in Hd as [H1%N.leb_le H2%N.leb_le].
  repeat (apply orb_false_intro);
    try (apply andb_false_iff; (left; apply N.leb_gt; lia) || (right; apply N.leb_gt; lia));
    apply N.eqb_neq; lia.
Qed.

End StringFacts.

Section SearchFacts.
Implicit Types (s t a r : jsstring) (c d : N).

Lemma drop_past_cons a c r : drop (S (length a)) (a ++ c :: r) = r.
Proof. induction a; simpl; auto. Qed.

Lemma search_found c a r i :
  c ∉ a → search c (a ++ c :: r) i = (i + Z.of_nat (length a))%Z.
Proof.
  revert i. induction a as [|x a IH]; intros i Hna; simpl.
  - rewrite N.eqb_refl. lia.
  - apply not_elem_of_cons in Hna as [Hx Ha].
    destruct (N.eqb_spec x c); [congruence|]. rewrite IH by done. lia.
Qed.

Lemma search_cases c s i :
  ((c ∉ s) ∧ search c s i = (-1)%Z)
  ∨ (∃ a r, s = a ++ c :: r ∧ c ∉ a).
Proof.
  induction s as [|x s IH].
  - left. split; [apply not_elem_of_nil|done].
  - destruct (N.eqb_spec x c) as [->|Hx].
    + right. exists [], s. split; [done|apply not_elem_of_nil].
    + destruct IH as [[Hn Hs]|(a & r & -> & Ha)].
      * left. split; [by apply not_elem_of_cons|].
        simpl. destruct (N.eqb_spec x c); [done|].
        revert Hn. clear. revert i. induction s as [|y s IH]; intros i Hn; simpl; [done|].
        apply not_elem_of_cons in Hn as [Hy Hs].
        destruct (N.eqb_spec y c); [congruence|]. by apply IH.
      * right. exists (x :: a), r. split; [done|].
        apply not_elem_of_cons. split; [congruence|done].
Qed.

Lemma search_absent c s i : c ∉ s → search c s i = (-1)%Z.
Proof.
  revert i. induction s as [|y s IH]; intros i Hn; simpl; [done|].
  apply not_elem_of_cons in Hn as [Hy Hs].
  destruct (N.eqb_spec y c); [congruence|]. by apply IH.
Qed.

Lemma indexOf_nat s c (k : nat) :
  (k ≤ length s)%nat → indexOf s c (Z.of_nat k) = search c (drop k s) (Z.of_nat k).
Proof.
  intros Hk. unfold indexOf.
  replace (Z.to_nat _) with k by lia. done.
Qed.

Lemma indexOf_0 s c : indexOf s c 0 = search c s 0%Z.
Proof. apply (indexOf_nat s c 0). lia. Qed.

Lemma slice_nat s (a b : nat) :
  (a ≤ b ≤ length s)%nat →
  slice s (Z.of_nat a) (Z.of_nat b) = take (b - a) (drop a s).
Proof.
  intros Hab. unfold slice, clamp.
  destruct (Z.ltb_spec (Z.of_nat a) 0); [lia|].
  destruct (Z.ltb_spec (Z.of_nat b) 0); [lia|].
  f_equal; [|f_equal]; lia.
Qed.

Lemma allDigits_no_dot a : allDigits a = true → DOT ∉ a.
Proof.
  induction a as [|x a IH]; simpl; intros Hd; [apply not_elem_of_nil|].
  destruct (N.ltb_spec x 48); [done|]. destruct (N.ltb_spec 57 x); [done|]. simpl in Hd.
  apply not_elem_of_cons. split; [unfold DOT; lia|auto].
Qed.

Lemma isSubHeading_shape t : isSubHeading t = true ↔ SubHeadingShape (trim t).
Proof.
  unfold isSubHeading, SubHeadingShape. generalize (trim t) as s. clear t. intros s.
  split.
  - destruct (search_cases DOT s 0) as [[Hn Hs]|(a & r & -> & Ha)].
    { rewrite indexOf_0, Hs. done. }
    rewrite indexOf_0, (search_found _ _ _ _ Ha).
    destruct (Z.leb_spec (0 + Z.of_nat (length a)) 0); [done|].
    replace (0 + Z.of_nat (length a) + 1)%Z with (Z.of_nat (S (length a))) by lia.
    rewrite indexOf_nat by (rewrite length_app; simpl; lia).
    rewrite drop_past_cons.
    destruct (search_cases DOT r (Z.of_nat (S (length a)))) as [[Hn Hs]|(b & rest & -> & Hb)].
    { rewrite Hs. destruct (Z.leb_spec (-1) (Z.of_nat (S (length a)))); [done|lia]. }
    rewrite (search_found _ _ _ _ Hb).
    destruct (Z.leb_spec (Z.of_nat (S (length a)) + Z.of_nat (length b)) (Z.of_nat (S (length a)))); [done|].
    replace (0 + Z.of_nat (length a))%Z with (Z.of_nat (length a)) by lia.
    replace (Z.of_nat (S (length a)) + Z.of_nat (length b))%Z
      with (Z.of_nat (S (length a) + length b)) by lia.
    rewrite (slice_nat _ 0 (length a)) by (rewrite length_app; lia).
    rewrite (slice_nat _ (S (length a)) (S (length a) + length b))
      by (rewrite !length_app; simpl; rewrite length_app; simpl; lia).
    rewrite drop_0, Nat.sub_0_r, take_app_length.
    replace (S (length a) + length b - S (length a))%nat with (length b) by lia.
    rewrite drop_past_cons, take_app_length.
    destruct a as [|a0 a]; [simpl in *; lia|]. destruct b as [|b0 b]; [simpl in *; lia|].
    simpl length. simpl orb. cbv iota.
    destruct (allDigits (a0 :: a)) eqn:Ea; [|done].
    destruct (allDigits (b0 :: b)) eqn:Eb; [|done].
    intros _. exists (a0 :: a), (b0 :: b), rest. done.
  - intros (a & b & rest & -> & Hane & Hbne & Ha & Hb).
    pose proof (allDigits_no_dot _ Ha) as Hda. pose proof (allDigits_no_dot _ Hb) as Hdb.
    rewrite indexOf_0, (search_found _ _ _ _ Hda).
    assert (0 < length a)%nat by (destruct a; [done|simpl; lia]).
    assert (0 < length b)%nat by (destruct b; [done|simpl; lia]).
    destruct (Z.leb_spec (0 + Z.of_nat (length a)) 0); [lia|].
    replace (0 + Z.of_nat (length a) + 1)%Z with (Z.of_nat (S (length a))) by lia.
    rewrite indexOf_nat by (rewrite length_app; simpl; lia).
    rewrite drop_past_cons.
    rewrite (search_found _ _ _ _ Hdb).
    destruct (Z.leb_spec (Z.of_nat (S (length a)) + Z.of_nat (length b)) (Z.of_nat (S (length a)))); [lia|].
    replace (0 + Z.of_nat (length a))%Z with (Z.of_nat (length a)) by lia.
    replace (Z.of_nat (S (length a)) + Z.of_nat (length b))%Z
      with (Z.of_nat (S (length a) + length b)) by lia.
    rewrite (slice_nat _ 0 (length a)) by (rewrite length_app; lia).
    rewrite (slice_nat _ (S (length a)) (S (length a) + length b))
      by (rewrite !length_app; simpl; rewrite length_app; simpl; lia).
    rewrite drop_0, Nat.sub_0_r, take_app_length.
    replace (S (length a) + length b - S (length a))%nat with (length b) by lia.
    rewrite drop_past_cons, take_app_length.
    rewrite Ha, Hb.
    destruct (Nat.eqb_spec (length a) 0); [lia|]. destruct (Nat.eqb_spec (length b) 0); [lia|]. done.
Qed.
End SearchFacts.

Section PrefixFacts.
Implicit Types (s t a r p : jsstring) (c d : N).

Lemma sliceFrom_nat s (k : nat) :
  (k ≤ length s)%nat → sliceFrom s (Z.of_nat k) = drop k s.
Proof.
  intros Hk. unfold sliceFrom. rewrite slice_nat by lia.
  apply take_ge. rewrite length_drop. lia.
Qed.

Lemma startsWith_prefix s p : startsWith s p = true ↔ ∃ r, s = p ++ r.
Proof.
  revert s. induction p as [|a p IH]; intros s; simpl.
  - split; [intros _; by exists s|done].
  - destruct s as [|c s].
    + split; [done|]. by intros [r ?].
    + rewrite andb_true_iff, IH, N.eqb_eq. split.
      * intros [-> [r ->]]. by exists r.
      * intros [r [= -> ->]]. split; [done|by exists r].
Qed.

Context `{UnicodeOps}.

Lemma isExerciseHeading_shape t :
  isExerciseHeading t = true ↔ ExerciseShape (toLowerCase (trim t)).
Proof.
  unfold isExerciseHeading, ExerciseShape.
  generalize (toLowerCase (trim t)) as s. clear t. intros s. split.
  - destruct (startsWith s (lit "ejercicio")) eqn:Hp; [|done]. simpl negb. cbv iota.
    apply startsWith_prefix in Hp as [r ->].
    rewrite sliceFrom_nat by (rewrite length_app; lia).
    rewrite drop_app_length.
    destruct (trim r) as [|r0 rest] eqn:Hr; [done|]. intros Hd.
    apply trim_cons in Hr as (w & tl & -> & Hw & _).
    by exists w, r0, tl.
  - intros (w & d & tl & -> & Hw & Hd).
    assert (startsWith (lit "ejercicio" ++ w ++ d :: tl) (lit "ejercicio") = true) as ->
      by (apply startsWith_prefix; eauto).
    simpl negb. cbv iota.
    rewrite sliceFrom_nat by (rewrite length_app; lia).
    rewrite drop_app_length.
    destruct (trim_ws_cons w d tl Hw (isDigit_not_ws d Hd)) as [r' ->].
    exact Hd.
Qed.
End PrefixFacts.

(** * Facts about the sections fold *)

Section SectionizerFacts.
Context `{UnicodeOps}.
Implicit Types (st : Store) (b : TopicBlock) (bs : list TopicBlock)
  (secs : list SectionObj).

Lemma snoc_cases {A} (l : list A) : l = [] ∨ ∃ init last, l = init ++ [last].
Proof. destruct l using rev_ind; [by left|right; eauto]. Qed.

Lemma alter_last {A} (f : A → A) (init : list A) (x : A) :
  alter f (length (init ++ [x]) - 1)%nat (init ++ [x]) = init ++ [f x].
Proof.
  rewrite length_app. simpl.
  replace (length init + 1 - 1)%nat with (length init + 0)%nat by lia.
  by rewrite alter_app_r.
Qed.

Lemma visit_snoc st b :
  aliased st →
  aliased (visit st (Some b)) ∧ sections (visit st (Some b)) = snocBlock (sections st) b.
Proof.
  unfold aliased. intros Hst.
  assert (Hpush : ∀ ttl, aliased (pushSection ttl st)).
  { intros ttl. unfold aliased, pushSection. simpl. rewrite length_app. simpl.
    by replace (length (sections st) + 1)%nat with (S (length (sections st))) by lia. }
  assert (Hblk : aliased (pushBlock b (ensureCurrent st))
                 ∧ sections (pushBlock b (ensureCurrent st)) =
                   match sections st with
                   | [] => [{| title := []; blocks := [b] |}]
                   | _ => alter (λ sec, {| title := title sec; blocks := blocks sec ++ [b] |})
                            (length (sections st) - 1)%nat (sections st)
                   end).
  { unfold aliased, pushBlock, ensureCurrent. destruct st as [secs cur]. simpl in *.
    destruct secs as [|s0 secs]; simpl in Hst; subst cur; simpl.
    - done.
    - rewrite length_alter. simpl. by rewrite Nat.sub_0_r. }
  unfold snocBlock, appendToCurrent, visit, isTopLevel.
  destruct b; try exact Hblk.
  destruct (isSubHeading (trim text) || isExerciseHeading (trim text)); simpl negb; cbv iota.
  - exact Hblk.
  - split; [apply Hpush|done].
Qed.

Lemma forEach_snoc (bs : list (option TopicBlock)) ob st :
  forEach (bs ++ [ob]) st = visit (forEach bs st) ob.
Proof. unfold forEach. by rewrite foldl_snoc. Qed.

Lemma forEach_aliased bs : aliased (forEach (Some <$> bs) emptyStore).
Proof.
  induction bs as [|b bs IH] using rev_ind; [done|].
  rewrite fmap_app. simpl. rewrite forEach_snoc. by apply visit_snoc.
Qed.

Lemma sectionize_snoc bs b :
  sectionize (Some <$> (bs ++ [b])) = snocBlock (sectionize (Some <$> bs)) b.
Proof.
  unfold sectionize. rewrite fmap_app. simpl. rewrite forEach_snoc.
  apply visit_snoc, forEach_aliased.
Qed.

Lemma snocBlock_nonempty secs b : snocBlock secs b ≠ [].
Proof.
  unfold snocBlock, appendToCurrent. destruct (isTopLevel b).
  - by destruct secs.
  - destruct secs as [|s0 secs]; [done|]. intros Hn.
    apply (f_equal length) in Hn. rewrite length_alter in Hn. done.
Qed.

Lemma sectionize_nil bs : sectionize (Some <$> bs) = [] → bs = [].
Proof.
  destruct (snoc_cases bs) as [->|(init & b & ->)]; [done|].
  rewrite sectionize_snoc. intros Hn. by apply snocBlock_nonempty in Hn.
Qed.

Lemma isTopLevel_heading b : isTopLevel b = true → b = BlockH (headingText b).
Proof. by destruct b. Qed.

Lemma leadingAnon_snoc bs b :
  leadingAnon (bs ++ [b]) = match bs with [] => negb (isTopLevel b) | _ => leadingAnon bs end.
Proof. by destruct bs. Qed.

(** The block lists, concatenated, are the input without its top-level
    headings. *)
Lemma sectionize_blocks bs :
  concat (blocks <$> sectionize (Some <$> bs))
  = filter (λ b, isTopLevel b = false) bs.
Proof.
  induction bs as [|b bs IH] using rev_ind; [done|].
  rewrite sectionize_snoc, filter_app, <- IH. unfold snocBlock, appendToCurrent.
  rewrite filter_cons, filter_nil.
  destruct (isTopLevel b) eqn:Hb.
  - rewrite decide_False by done. rewrite fmap_app, concat_app. done.
  - rewrite decide_True by done.
    destruct (snoc_cases (sectionize (Some <$> bs))) as [->|(init & last & ->)]; [done|].
    destruct (init ++ [last]) eqn:E; [by destruct init|]. rewrite <- E.
    rewrite alter_last, !fmap_app, !concat_app. simpl.
    by rewrite !app_nil_r, app_assoc.
Qed.

(** The titles are those of the top-level headings, in order, after the
    empty title of a leading section opened without a heading. *)
Lemma sectionize_titles bs :
  title <$> sectionize (Some <$> bs)
  = (if leadingAnon bs then [[]] else [])
    ++ (headingText <$> filter (λ b, isTopLevel b = true) bs).
Proof.
  induction bs as [|b bs IH] using rev_ind; [done|].
  rewrite sectionize_snoc, filter_app, fmap_app, leadingAnon_snoc.
  rewrite filter_cons, filter_nil. unfold snocBlock, appendToCurrent.
  destruct (isTopLevel b) eqn:Hb.
  - rewrite decide_True by done. rewrite fmap_app, IH. simpl.
    destruct bs; [done|]. by rewrite app_assoc.
  - rewrite decide_False by done. rewrite fmap_nil, app_nil_r.
    destruct (snoc_cases (sectionize (Some <$> bs))) as [Hs|(init & last & Hs)].
    + rewrite Hs. by apply sectionize_nil in Hs as ->.
    + assert (bs ≠ []) as Hne by (intros ->; by destruct init).
      destruct bs as [|b0 bs]; [done|]. rewrite <- IH, Hs.
      destruct (init ++ [last]) eqn:E; [by destruct init|]. rewrite <- E.
      by rewrite alter_last, !fmap_app.
Qed.

Lemma unsection_app anon secs more :
  secs ≠ [] →
  unsection anon (secs ++ more) = unsection anon secs ++ (more ≫= withHeading).
Proof.
  destruct secs as [|s0 secs]; [done|]. intros _. simpl.
  by rewrite bind_app, app_assoc.
Qed.

Lemma unsection_push anon init last b :
  unsection anon (init ++ [{| title := title last; blocks := blocks last ++ [b] |}])
  = unsection anon (init ++ [last]) ++ [b].
Proof.
  destruct init as [|s0 init]; simpl.
  - rewrite !app_nil_r. destruct anon; [done|]. done.
  - rewrite !bind_app. simpl. rewrite !app_nil_r, <- !app_assoc. done.
Qed.

(** Writing the sections back reproduces the input. *)
Lemma sectionize_unsection bs :
  unsection (leadingAnon bs) (sectionize (Some <$> bs)) = bs.
Proof.
  induction bs as [|b bs IH] using rev_ind; [done|].
  rewrite sectionize_snoc, leadingAnon_snoc. unfold snocBlock, appendToCurrent.
  destruct (snoc_cases (sectionize (Some <$> bs))) as [Hs|(init & last & Hs)].
  - rewrite Hs. apply sectionize_nil in Hs as ->. simpl.
    destruct (isTopLevel b) eqn:Hb; simpl; [|done].
    by destruct b.
  - assert (bs ≠ []) as Hne. { intros ->. change (@nil SectionObj = init ++ [last]) in Hs. by destruct init. }
    destruct bs as [|b0 bs]; [done|].
    transitivity (unsection (leadingAnon (b0 :: bs)) (sectionize (Some <$> b0 :: bs)) ++ [b]);
      [|by rewrite IH].
    rewrite Hs.
    destruct (isTopLevel b) eqn:Hb.
    + rewrite unsection_app by (by destruct init).
      by destruct b.
    + destruct (init ++ [last]) eqn:E; [by destruct init|]. rewrite <- E.
      rewrite alter_last. apply unsection_push.
Qed.
End SectionizerFacts.

(** * Facts about the tokenizer *)

Section TokenizerFacts.
Implicit Types (s t rest : jsstring) (c d q : N) (i j n : nat).

Lemma backtrack_some {A} (k : nat → option A) lo span r :
  backtrack k lo span = Some r →
  ∃ j, (lo ≤ j ≤ lo + span)%nat ∧ k j = Some r.
Proof.
  induction span as [|span IH]; simpl.
  - destruct (k (lo + 0)%nat) eqn:E; [|done]. intros [= ->].
    exists (lo + 0)%nat. split; [lia|done].
  - destruct (k (lo + S span)%nat) eqn:E.
    + intros [= ->]. exists (lo + S span)%nat. split; [lia|done].
    + intros (j & Hj & Hk)%IH. exists j. split; [lia|done].
Qed.

Lemma run_le cls s : (run cls s ≤ length s)%nat.
Proof. induction s as [|c s IH]; simpl; [lia|]. destruct (cls c); simpl; lia. Qed.

Lemma run_drop_le cls s i : (run cls (drop i s) ≤ length s - i)%nat.
Proof. rewrite <- length_drop. apply run_le. Qed.

Lemma stringBody_bound q rest n :
  stringBody q rest = Some n → (1 ≤ n ≤ length rest)%nat.
Proof.
  remember (length rest) as m eqn:Hm. revert rest n Hm.
  induction m as [m IH] using lt_wf_ind. intros rest n Hm.
  destruct rest as [|c rest]; simpl; [done|].
  destruct (c =? q); [intros [= <-]; simpl in Hm; lia|].
  destruct (c =? BACKSLASH).
  - destruct rest as [|d rest]; [done|].
    destruct (isLineTerminator d); [done|].
    destruct (stringBody q rest) as [k|] eqn:E; [|done].
    intros [= <-]. simpl in Hm.
    apply (IH (length rest)) in E; [|lia|done]. simpl. lia.
  - destruct (stringBody q rest) as [k|] eqn:E; [|done].
    intros [= <-]. simpl in Hm.
    apply (IH (length rest)) in E; [|lia|done]. lia.
Qed.

Lemma altString_inside q s i : inside s i (altString q s i).
Proof.
  unfold inside, altString. intros n.
  destruct (s !! i) as [c|] eqn:Hc; [|done].
  apply lookup_lt_Some in Hc.
  destruct (c =? q); [|done].
  destruct (stringBody q (drop (S i) s)) as [k|] eqn:E; [|done].
  intros [= <-]. apply stringBody_bound in E. rewrite length_drop in E. lia.
Qed.

Lemma altIdent_inside s i : inside s i (altIdent s i).
Proof.
  unfold inside, altIdent. intros n.
  destruct (boundaryAt s i); [|done].
  destruct (s !! i) as [c|] eqn:Hc; [|done].
  apply lookup_lt_Some in Hc.
  destruct (isIdentStart c); [|done].
  intros (j & Hj & Hk)%backtrack_some.
  destruct (boundaryAt s (i + 1 + j)); [|done]. injection Hk as <-.
  pose proof (run_drop_le isWordChar s (S i)). lia.
Qed.

Lemma altFraction_inside s j n :
  altFraction s j = Some n → (n ≤ length s - j)%nat.
Proof.
  unfold altFraction.
  destruct (s !! j) as [c|] eqn:Hc.
  - apply lookup_lt_Some in Hc.
    destruct (c =? DOT).
    + destruct (run isDigit (drop (S j) s)) as [|m] eqn:Hr.
      * destruct (boundaryAt s j); [|done]. intros [= <-]. lia.
      * destruct (backtrack _ 1 m) as [r|] eqn:E.
        -- intros [= <-]. apply backtrack_some in E as (k & Hk & Hb).
           destruct (boundaryAt s (j + 1 + k)); [|done]. injection Hb as <-.
           pose proof (run_drop_le isDigit s (S j)). lia.
        -- destruct (boundaryAt s j); [|done]. intros [= <-]. lia.
    + destruct (boundaryAt s j); [|done]. intros [= <-]. lia.
  - destruct (boundaryAt s j); [|done]. intros [= <-]. lia.
Qed.

Lemma altNumber_inside s i : inside s i (altNumber s i).
Proof.
  unfold inside, altNumber. intros n.
  destruct (boundaryAt s i); [|done].
  destruct (run isDigit (drop i s)) as [|m] eqn:Hr; [done|].
  intros (k & Hk & Hf)%backtrack_some.
  destruct (altFraction s (i + k)) as [f|] eqn:E; [|done].
  injection Hf as <-. apply altFraction_inside in E.
  pose proof (run_drop_le isDigit s i). lia.
Qed.

Lemma altSpace_inside s i : inside s i (altSpace s i).
Proof.
  unfold inside, altSpace. intros n.
  destruct (run isWhiteSpace (drop i s)) as [|m] eqn:Hr; [done|].
  intros [= <-]. pose proof (run_drop_le isWhiteSpace s i). lia.
Qed.

Lemma altAny_inside s i : inside s i (altAny s i).
Proof.
  unfold inside, altAny. intros n.
  destruct (s !! i) as [c|] eqn:Hc; [|done].
  apply lookup_lt_Some in Hc.
  destruct (isLineTerminator c); [done|]. intros [= <-]. lia.
Qed.

Lemma orElse_inside s i (a b : option nat) :
  inside s i a → inside s i b → inside s i (orElse a b).
Proof. destruct a; simpl; auto. Qed.

Lemma execToken_inside s i : inside s i (execToken s i).
Proof.
  unfold execToken.
  repeat apply orElse_inside;
    auto using altString_inside, altIdent_inside, altNumber_inside,
      altSpace_inside, altAny_inside.
Qed.

Lemma lineTerminator_ws c : isLineTerminator c = true → isWhiteSpace c = true.
Proof.
  unfold isLineTerminator, isWhiteSpace.
  intros Hc. repeat (apply orb_prop in Hc as [Hc|Hc]);
    apply N.eqb_eq in Hc; by subst c.
Qed.

Lemma orElse_some {A} (a b : option A) : is_Some b → is_Some (orElse a b).
Proof. destruct a; simpl; eauto. Qed.

(** The last two alternatives leave no code unit unmatched. *)
Lemma execToken_total s i : (i < length s)%nat → is_Some (execToken s i).
Proof.
  intros Hi. unfold execToken. do 4 apply orElse_some.
  destruct (lookup_lt_is_Some_2 s i Hi) as [c Hc].
  unfold altSpace, altAny. rewrite Hc.
  rewrite (drop_S _ _ _ Hc). simpl.
  destruct (isLineTerminator c) eqn:Hl.
  - rewrite (lineTerminator_ws _ Hl). simpl. eauto.
  - destruct (isWhiteSpace c); simpl; eauto.
Qed.

Lemma execToken_end s i : (length s ≤ i)%nat → execToken s i = None.
Proof.
  intros Hi. destruct (execToken s i) as [n|] eqn:E; [|done].
  apply execToken_inside in E. lia.
Qed.

Lemma substring_cons_drop s i n :
  (i + n ≤ length s)%nat → substring s i (i + n) ++ drop (i + n) s = drop i s.
Proof.
  intros Hn. unfold substring.
  replace (i + n - i)%nat with n by lia.
  rewrite <- (take_drop n (drop i s)) at 2. by rewrite drop_drop.
Qed.

Lemma substring_length s i n :
  (i + n ≤ length s)%nat → length (substring s i (i + n)) = n.
Proof.
  intros Hn. unfold substring. rewrite length_take, length_drop. lia.
Qed.

Lemma matchAllFrom_tiled s i :
  (i ≤ length s)%nat →
  tiled s i (matchAllFrom s i)
  ∧ concat (m0 <$> matchAllFrom s i) = drop i s.
Proof.
  remember (length s - i)%nat as m eqn:Hm. revert i Hm.
  induction m as [m IH] using lt_wf_ind. intros i Hm Hi.
  simp matchAllFrom. destruct (decide (i ≤ length s)%nat) as [Hle|]; [|lia]. simpl.
  destruct (decide (i = length s)) as [Heq|Hne].
  - rewrite execToken_end by lia. simpl.
    simp matchAllFrom. destruct (decide (S i ≤ length s)%nat); [lia|]. simpl.
    split; [done|]. symmetry. apply drop_ge. lia.
  - pose proof (execToken_inside s i) as Hin.
    destruct (execToken_total s i) as [n Hn]; [lia|].
    rewrite Hn. specialize (Hin n Hn). destruct n as [|n]; [lia|].
    cbn [matchAllFrom_unfold_clause_1_clause_2 tiled]. rewrite fmap_cons. cbn [concat m0 index].
    destruct (IH (length s - (i + S n))%nat) with (i := (i + S n)%nat) as [Ht Hc];
      [lia|done|lia|].
    rewrite substring_length by lia. rewrite Hc.
    split; [|by apply substring_cons_drop; lia].
    split; [done|]. split; [|done].
    intros Hnil. apply (f_equal length) in Hnil. rewrite substring_length in Hnil by lia. done.
Qed.
End TokenizerFacts.

Section RenderFacts.
Implicit Types (s t rest line : jsstring) (c d q : N) (i j n : nat).

Lemma scanComment_range rest (i : Z) a b e :
  scanComment rest i a b e = (-1)%Z
  ∨ (i ≤ scanComment rest i a b e < i + Z.of_nat (length rest))%Z.
Proof.
  revert i a b e. induction rest as [|ch rest IH]; intros i a b e; simpl; [by left|].
  repeat match goal with
         | |- context [if ?x then _ else _] => destruct x
         end;
    try (right; lia);
    match goal with
    | |- context [scanComment rest ?i' ?a' ?b' ?e'] =>
        destruct (IH i' a' b' e') as [->|?]; [by left|right; lia]
    end.
Qed.

Lemma codePart_commentPart line : codePart line ++ commentPart line = line.
Proof.
  unfold codePart, commentPart, commentAt.
  destruct (scanComment_range line 0 false false false) as [->|Hr].
  - simpl. by rewrite app_nil_r.
  - destruct (Z.eqb_spec (scanComment line 0 false false false) (-1)); [lia|].
    rewrite <- (Z2Nat.id (scanComment line 0 false false false)) by lia.
    rewrite (slice_nat line 0), sliceFrom_nat by lia.
    rewrite drop_0, Nat.sub_0_r. apply take_drop.
Qed.

Lemma commentPart_nonempty line :
  (commentAt line =? -1)%Z = false → commentPart line ≠ [].
Proof.
  unfold commentPart, commentAt. intros Hc. rewrite Hc.
  apply Z.eqb_neq in Hc.
  destruct (scanComment_range line 0 false false false) as [?|Hr]; [done|].
  rewrite <- (Z2Nat.id (scanComment line 0 false false false)) by lia.
  rewrite sliceFrom_nat by lia. intros Hn. apply (f_equal length) in Hn.
  rewrite length_drop in Hn. simpl in Hn. lia.
Qed.

Lemma startsWith_unit t q :
  startsWith t [q] = from_option (λ c, c =? q) false (head t).
Proof. destruct t as [|c t]; simpl; [done|]. by rewrite andb_true_r. Qed.

Lemma renderToken_classify t :
  t ≠ [] → renderToken t = Some {| kind := classifyBySpec t; content := t |}.
Proof.
  intros Ht. unfold renderToken, classifyBySpec.
  destruct t as [|c t]; [done|]. cbn [length Nat.eqb].
  rewrite trim_empty, !startsWith_unit. cbn [head from_option].
  repeat match goal with
         | |- context [if ?x then _ else _] => destruct x; try done
         end.
Qed.

Lemma tiled_nonempty s i ms : tiled s i ms → Forall (λ t, t ≠ []) (m0 <$> ms).
Proof.
  revert i. induction ms as [|m ms IH]; intros i; simpl; [constructor|].
  intros (_ & Hne & _ & Ht). constructor; [done|]. by eapply IH.
Qed.

Lemma tokens_nonempty line : Forall (λ t, t ≠ []) (tokens line).
Proof.
  unfold tokens. eapply tiled_nonempty, matchAllFrom_tiled. lia.
Qed.

Lemma tokens_concat line : concat (tokens line) = codePart line.
Proof.
  unfold tokens. destruct (matchAllFrom_tiled (codePart line) 0) as [_ ->]; [lia|done].
Qed.

Lemma rendered_classified line :
  renderToken <$> tokens line
  = (λ t, Some {| kind := classifyBySpec t; content := t |}) <$> tokens line.
Proof.
  apply Forall_fmap_ext_1. eapply Forall_impl; [apply tokens_nonempty|].
  intros t Ht. by apply renderToken_classify.
Qed.

(** What the rendered entries show: the lexemes of the code part, then the
    comment if there is one. *)
Lemma tokenizePythonLine_texts line :
  spanText <$> tokenizePythonLine line
  = tokens line ++ (if (commentAt line =? -1)%Z then [] else [commentPart line]).
Proof.
  unfold tokenizePythonLine. rewrite rendered_classified.
  assert (spanText <$> ((λ t, Some {| kind := classifyBySpec t; content := t |}) <$> tokens line)
          = tokens line) as Hcode.
  { rewrite <- list_fmap_compose. rewrite <- (list_fmap_id (tokens line)) at 2.
    by apply list_fmap_ext. }
  destruct (commentAt line =? -1)%Z eqn:Hc.
  - unfold commentPart. rewrite Hc. simpl. by rewrite app_nil_r.
  - pose proof (commentPart_nonempty line Hc) as Hne.
    destruct (commentPart line) as [|c0 cp] eqn:E; [done|]. cbn [length Nat.eqb].
    by rewrite fmap_app, Hcode.
Qed.

Lemma concat_lookup_substring {A} (ts : list (list A)) k (x : list A) :
  ts !! k = Some x →
  x = take (length x) (drop (length (concat (take k ts))) (concat ts)).
Proof.
  intros Hk. rewrite <- (take_drop_middle ts k x Hk) at 2.
  rewrite concat_app. simpl. rewrite drop_app_length. by rewrite take_app_length.
Qed.

Lemma stringBody_absent q rest : q ∉ rest → stringBody q rest = None.
Proof.
  remember (length rest) as m eqn:Hm. revert rest Hm.
  induction m as [m IH] using lt_wf_ind. intros rest Hm Hq.
  destruct rest as [|c rest]; simpl; [done|].
  apply not_elem_of_cons in Hq as [Hc Hq].
  destruct (N.eqb_spec c q); [congruence|].
  destruct (c =? BACKSLASH).
  - destruct rest as [|d rest]; [done|].
    apply not_elem_of_cons in Hq as [Hd Hq].
    destruct (isLineTerminator d); [done|].
    rewrite (IH (length rest)); [done|simpl in Hm; lia|done|done].
  - rewrite (IH (length rest)); [done|simpl in Hm; lia|done|done].
Qed.

(** A quote that the quoted-string alternatives do not match falls to the
    last alternative. *)
Lemma execToken_open_quote s i q :
  q = DQUOTE ∨ q = SQUOTE →
  s !! i = Some q → stringBody q (drop (S i) s) = None →
  execToken s i = Some 1%nat.
Proof.
  intros Hq Hi Hbody.
  unfold execToken, altString, altIdent, altNumber, altSpace, altAny.
  rewrite Hi, (drop_S _ _ _ Hi).
  destruct Hq as [-> | ->]; simpl; rewrite Hbody; by destruct (boundaryAt s i).
Qed.

Lemma matchAllFrom_open_quote s i q :
  q = DQUOTE ∨ q = SQUOTE →
  s !! i = Some q → stringBody q (drop (S i) s) = None →
  matchAllFrom s i = {| index := i; m0 := [q] |} :: matchAllFrom s (S i).
Proof.
  intros Hq Hi Hbody. pose proof (lookup_lt_Some _ _ _ Hi) as Hlt.
  remember (matchAllFrom s (S i)) as tl eqn:Htl.
  simp matchAllFrom. destruct (decide (i ≤ length s)%nat) as [Hle|]; [|lia]. simpl.
  rewrite (execToken_open_quote s i q Hq Hi Hbody).
  cbn [matchAllFrom_unfold_clause_1_clause_2].
  replace (i + 1)%nat with (S i) by lia. unfold substring.
  rewrite (drop_S _ _ _ Hi). replace (S i - i)%nat with 1%nat by lia.
  by subst tl.
Qed.
End RenderFacts.

Section CoverFacts.
Implicit Types (line t : jsstring) (ts : list jsstring).

Lemma covers_concat line ts from :
  Forall (λ t, t ≠ []) ts → (from ≤ length line)%nat →
  concat ts = drop from line → covers line from ts.
Proof.
  intros Hne. revert from. induction Hne as [|t ts Ht _ IH]; intros from Hle Hc.
  - simpl in *. symmetry in Hc. apply (f_equal length) in Hc.
    rewrite length_drop in Hc. simpl in Hc. lia.
  - simpl in Hc. assert (length t ≤ length line - from)%nat as Hlen.
    { apply (f_equal length) in Hc. rewrite length_app, length_drop in Hc. lia. }
    cbn [covers]. split; [done|]. split.
    + unfold substring. replace (from + length t - from)%nat with (length t) by lia.
      by rewrite <- Hc, take_app_length.
    + apply IH; [lia|]. rewrite <- drop_drop, <- Hc. by rewrite drop_app_length.
Qed.

Lemma tokenizePythonLine_some line :
  Forall (λ o, ∃ sp, o = Some sp ∧ content sp ≠ []) (tokenizePythonLine line).
Proof.
  unfold tokenizePythonLine. rewrite rendered_classified.
  assert (Forall (λ o : option Span, ∃ sp, o = Some sp ∧ content sp ≠ [])
            ((λ t, Some {| kind := classifyBySpec t; content := t |}) <$> tokens line))
    as Hcode.
  { apply Forall_fmap. eapply Forall_impl; [apply tokens_nonempty|].
    intros t Ht. simpl. eauto. }
  destruct (commentPart line) as [|c cp] eqn:E; [exact Hcode|]. cbn [length Nat.eqb].
  apply Forall_app. split; [done|]. repeat constructor. eexists. split; [done|]. done.
Qed.

Lemma tokenizePythonLine_concat line :
  concat (spanText <$> tokenizePythonLine line) = line.
Proof.
  rewrite tokenizePythonLine_texts, concat_app, tokens_concat.
  transitivity (codePart line ++ commentPart line); [|apply codePart_commentPart].
  f_equal. unfold commentPart. destruct (commentAt line =? -1)%Z; [done|].
  simpl. by rewrite app_nil_r.
Qed.
End CoverFacts.

(** * Where the tokens of a line start *)

Section BoundaryFacts.
Implicit Types (s t pre post mid line : jsstring) (c q : N) (i j a n k : nat)
  (ms : list RegExpMatch).

Lemma spanText_render t : spanText (renderToken t) = t.
Proof.
  destruct t as [|c t]; [done|]. by rewrite renderToken_classify.
Qed.

Lemma rendered_texts ms :
  concat (spanText <$> (renderToken <$> (m0 <$> ms))) = concat (m0 <$> ms).
Proof.
  f_equal. rewrite <- list_fmap_compose.
  rewrite <- (list_fmap_id (m0 <$> ms)) at 2.
  apply list_fmap_ext. intros ? t _. apply spanText_render.
Qed.

Lemma substring_app s j k i :
  (j ≤ k ≤ i)%nat → substring s j k ++ substring s k i = substring s j i.
Proof.
  intros Hk. unfold substring.
  replace (drop k s) with (drop (k - j) (drop j s)) by (rewrite drop_drop; f_equal; lia).
  replace (i - j)%nat with ((k - j) + (i - k))%nat by lia.
  by rewrite take_take_drop.
Qed.

Lemma substring_lookup s a n k :
  (k < n)%nat → substring s a (a + n) !! k = s !! (a + k)%nat.
Proof.
  intros Hk. unfold substring. replace (a + n - a)%nat with n by lia.
  rewrite lookup_take_lt by done. by rewrite lookup_drop.
Qed.

(** One step of the iteration: the first match from [i] on starts at [i]. *)
Lemma matchAllFrom_step s i :
  (i < length s)%nat →
  ∃ n, execToken s i = Some (S n) ∧ (i + S n ≤ length s)%nat
       ∧ matchAllFrom s i
         = {| index := i; m0 := substring s i (i + S n) |}
           :: matchAllFrom s (i + S n).
Proof.
  intros Hi. destruct (execToken_total s i Hi) as [n Hn].
  pose proof (execToken_inside s i n Hn) as Hin.
  destruct n as [|n]; [lia|]. exists n. split; [done|]. split; [lia|].
  remember (matchAllFrom s (i + S n)) as tl eqn:Htl.
  simp matchAllFrom. destruct (decide (i ≤ length s)%nat) as [Hle|]; [|lia]. simpl.
  rewrite Hn. cbn [matchAllFrom_unfold_clause_1_clause_2]. by subst tl.
Qed.

Lemma matchAllFrom_stop s i : (length s ≤ i)%nat → matchAllFrom s i = [].
Proof.
  intros Hi. simp matchAllFrom.
  destruct (decide (i ≤ length s)%nat) as [Hle|]; [|done]. simpl.
  rewrite execToken_end by lia. simpl.
  simp matchAllFrom. destruct (decide (S i ≤ length s)%nat); [lia|done].
Qed.

(** What stands in front of a place of the iteration is what the matches
    before it show. *)
Lemma matchAllFrom_split s j ms1 ms2 :
  matchAllFrom s j = ms1 ++ ms2 →
  ms2 = matchAllFrom s (j + length (concat (m0 <$> ms1))).
Proof.
  revert j. induction ms1 as [|m ms1 IH]; intros j Hms.
  - simpl in *. by rewrite Nat.add_0_r.
  - destruct (decide (j < length s)%nat) as [Hj|Hj].
    + destruct (matchAllFrom_step s j Hj) as (n & _ & Hn & Hstep).
      rewrite Hstep in Hms. simpl in Hms. injection Hms as <- Hms.
      apply IH in Hms. rewrite Hms. f_equal.
      rewrite fmap_cons. cbn [concat m0]. rewrite length_app, substring_length by lia. lia.
    + rewrite matchAllFrom_stop in Hms by lia. done.
Qed.

(** The iteration from [j] comes by [i] when no match that starts in
    between ends behind [i]. *)
Lemma matchAllFrom_reach s j i :
  (j ≤ i ≤ length s)%nat →
  (∀ a n, (j ≤ a < i)%nat → execToken s a = Some n → (a + n ≤ i)%nat) →
  ∃ ms1, matchAllFrom s j = ms1 ++ matchAllFrom s i
         ∧ concat (m0 <$> ms1) = substring s j i.
Proof.
  remember (i - j)%nat as d eqn:Hd. revert j Hd.
  induction d as [d IH] using lt_wf_ind. intros j Hd Hji Hcross.
  destruct (decide (j = i)) as [->|Hne].
  - exists []. split; [done|]. unfold substring. by rewrite Nat.sub_diag.
  - destruct (matchAllFrom_step s j) as (n & Hexec & Hn & Hstep); [lia|].
    pose proof (Hcross j (S n) ltac:(lia) Hexec) as Hle.
    destruct (IH (i - (j + S n))%nat ltac:(lia) (j + S n)%nat eq_refl ltac:(lia))
      as (ms1 & Hms & Hc).
    { intros a m Ha. apply Hcross. lia. }
    exists ({| index := j; m0 := substring s j (j + S n) |} :: ms1).
    split; [by rewrite Hstep, Hms|].
    rewrite fmap_cons. cbn [concat m0]. rewrite Hc. apply substring_app. lia.
Qed.

Lemma run_units (cls : N → bool) s k :
  (k ≤ run cls s)%nat → Forall (λ x, cls x = true) (take k s).
Proof.
  revert k. induction s as [|c s IH]; intros k; simpl.
  - intros _. by rewrite take_nil.
  - destruct k as [|k]; [constructor|].
    destruct (cls c) eqn:Hc; [|lia]. intros Hk. simpl.
    constructor; [done|]. apply IH. lia.
Qed.

(** What a match of each alternative is made of. *)
Lemma altIdent_units s i n :
  altIdent s i = Some n →
  Forall (λ c, isWordChar c = true) (substring s i (i + n)).
Proof.
  unfold altIdent. destruct (boundaryAt s i); [|done].
  destruct (s !! i) as [c|] eqn:Hc; [|done].
  destruct (isIdentStart c) eqn:Hid; [|done].
  intros (k & Hk & Hb)%backtrack_some.
  destruct (boundaryAt s (i + 1 + k)); [|done]. injection Hb as <-.
  unfold substring.
  match goal with |- context [take ?x _] => replace x with (S k) by lia end.
  rewrite (drop_S _ _ _ Hc). simpl. constructor.
  - unfold isWordChar. by rewrite Hid.
  - apply run_units. lia.
Qed.

Lemma altFraction_units s j n :
  altFraction s j = Some n →
  Forall (λ c, isDigit c || (c =? DOT) = true) (substring s j (j + n)).
Proof.
  unfold altFraction, substring. replace (j + n - j)%nat with n by lia.
  assert (∀ m, (if boundaryAt s j then Some 0%nat else None) = Some m →
               Forall (λ c, isDigit c || (c =? DOT) = true) (take m (drop j s)))
    as Hzero.
  { intros m. destruct (boundaryAt s j); [|done]. intros [= <-]. constructor. }
  destruct (s !! j) as [c|] eqn:Hc; [|apply Hzero].
  destruct (N.eqb_spec c DOT) as [->|]; [|apply Hzero].
  destruct (run isDigit (drop (S j) s)) as [|m] eqn:Hr; [apply Hzero|].
  destruct (backtrack _ 1 m) as [r|] eqn:E; [|apply Hzero].
  intros [= <-]. apply backtrack_some in E as (k & Hk & Hb).
  destruct (boundaryAt s (j + 1 + k)); [|done]. injection Hb as <-.
  rewrite (drop_S _ _ _ Hc). simpl. constructor; [done|].
  eapply Forall_impl; [apply (run_units isDigit); lia|].
  intros x Hx. simpl in Hx. by rewrite Hx.
Qed.

Lemma altNumber_units s i n :
  altNumber s i = Some n →
  Forall (λ c, isDigit c || (c =? DOT) = true) (substring s i (i + n)).
Proof.
  unfold altNumber. destruct (boundaryAt s i); [|done].
  destruct (run isDigit (drop i s)) as [|m] eqn:Hr; [done|].
  intros (k & Hk & Hf)%backtrack_some.
  destruct (altFraction s (i + k)) as [f|] eqn:E; [|done].
  injection Hf as <-.
  rewrite <- (substring_app s i (i + k) (i + (k + f))) by lia.
  apply Forall_app. split.
  - unfold substring. replace (i + k - i)%nat with k by lia.
    eapply Forall_impl; [apply (run_units isDigit); lia|].
    intros x Hx. simpl in Hx. by rewrite Hx.
  - replace (i + (k + f))%nat with (i + k + f)%nat by lia.
    by apply altFraction_units.
Qed.

Lemma altSpace_units s i n :
  altSpace s i = Some n →
  Forall (λ c, isWhiteSpace c = true) (substring s i (i + n)).
Proof.
  unfold altSpace.
  destruct (run isWhiteSpace (drop i s)) as [|m] eqn:Hr; [done|].
  intros [= <-]. unfold substring. replace (i + S m - i)%nat with (S m) by lia.
  apply run_units. lia.
Qed.

Lemma execToken_units s i n :
  execToken s i = Some n →
  (∃ q, (q = DQUOTE ∨ q = SQUOTE) ∧ s !! i = Some q)
  ∨ Forall (λ c, isWordChar c = true) (substring s i (i + n))
  ∨ Forall (λ c, isDigit c || (c =? DOT) = true) (substring s i (i + n))
  ∨ Forall (λ c, isWhiteSpace c = true) (substring s i (i + n))
  ∨ n = 1%nat.
Proof.
  unfold execToken.
  destruct (altString DQUOTE s i) as [r|] eqn:E1.
  { intros _. left. exists DQUOTE. split; [by left|].
    unfold altString in E1. destruct (s !! i) as [c|]; [|done].
    destruct (N.eqb_spec c DQUOTE) as [Heq|]; [by rewrite Heq|done]. }
  destruct (altString SQUOTE s i) as [r|] eqn:E2.
  { intros _. left. exists SQUOTE. split; [by right|].
    unfold altString in E2. destruct (s !! i) as [c|]; [|done].
    destruct (N.eqb_spec c SQUOTE) as [Heq|]; [by rewrite Heq|done]. }
  destruct (altIdent s i) as [r|] eqn:E3.
  { intros [= <-]. right. left. by apply altIdent_units. }
  destruct (altNumber s i) as [r|] eqn:E4.
  { intros [= <-]. right. right. left. by apply altNumber_units. }
  destruct (altSpace s i) as [r|] eqn:E5.
  { intros [= <-]. right. right. right. left. by apply altSpace_units. }
  simpl. unfold altAny. destruct (s !! i) as [c|]; [|done].
  destruct (isLineTerminator c); [done|]. intros [= <-]. by repeat right.
Qed.

(** No match that starts in a text without quotes ends behind a place where
    a run of white space, of digits and dots, or of word characters cannot
    go on. *)
Lemma execToken_no_cross s j i a n :
  (∀ k c, (j ≤ k < i)%nat → s !! k = Some c → c ≠ DQUOTE ∧ c ≠ SQUOTE) →
  from_option isWhiteSpace false (s !! i) = false →
  from_option (λ c, isDigit c || (c =? DOT)) false (s !! i) = false →
  from_option isWordChar false (s !! i) = false ∨ boundaryAt s i = true →
  (j ≤ a < i)%nat → execToken s a = Some n → (a + n ≤ i)%nat.
Proof.
  intros Hquote Hws Hdig Hword Ha Hexec.
  pose proof (execToken_inside s a n Hexec) as Hin.
  destruct (decide (a + n ≤ i)%nat) as [|Hgt]; [done|]. exfalso.
  assert (∀ P : N → bool, Forall (λ c, P c = true) (substring s a (a + n)) →
            ∀ k, (a ≤ k < a + n)%nat → from_option P false (s !! k) = true)
    as Hin_run.
  { intros P HP k Hk.
    destruct (lookup_lt_is_Some_2 s k ltac:(lia)) as [c Hc]. rewrite Hc. simpl.
    rewrite Forall_forall in HP. apply HP.
    apply (list_elem_of_lookup_2 _ (k - a)%nat).
    rewrite substring_lookup by lia. rewrite <- Hc. f_equal. lia. }
  destruct (execToken_units s a n Hexec)
    as [(q & Hq & Hsq)|[Hu|[Hu|[Hu|Hu]]]].
  - destruct (Hquote a q ltac:(lia) Hsq) as [? ?]. by destruct Hq.
  - pose proof (Hin_run _ Hu i ltac:(lia)) as Hi.
    destruct Hword as [Hw|Hb]; [congruence|].
    destruct i as [|i]; [lia|].
    pose proof (Hin_run _ Hu i ltac:(lia)) as Hp.
    unfold boundaryAt in Hb. rewrite Hi, Hp in Hb. done.
  - pose proof (Hin_run _ Hu i ltac:(lia)) as Hi. congruence.
  - pose proof (Hin_run _ Hu i ltac:(lia)) as Hi. congruence.
  - lia.
Qed.

(** The output: the lexemes of the code part rendered, then the comment. *)
Lemma comment_entry_text line :
  concat (spanText <$>
            (if (length (commentPart line) =? 0)%nat then []
             else [Some {| kind := Comment; content := commentPart line |}]))
  = commentPart line.
Proof.
  destruct (commentPart line) as [|c cp] eqn:E; [done|]. simpl. by rewrite app_nil_r.
Qed.

Lemma tokenizePythonLine_entries line :
  tokenizePythonLine line
  = (renderToken <$> (m0 <$> matchAllFrom (codePart line) 0))
    ++ (if (length (commentPart line) =? 0)%nat then []
        else [Some {| kind := Comment; content := commentPart line |}]).
Proof.
  unfold tokenizePythonLine, tokens.
  destruct (length (commentPart line) =? 0)%nat; [by rewrite app_nil_r|done].
Qed.

(** A place of the output where an entry starts is a place the iteration
    over the code part comes by, and the other way round. *)
Lemma tokenStart_matches line pre post :
  codePart line = pre ++ post →
  tokenStart line pre →
  ∃ ms1, matchAllFrom (codePart line) 0
         = ms1 ++ matchAllFrom (codePart line) (length pre)
         ∧ concat (m0 <$> ms1) = pre.
Proof.
  intros Hcode (ts1 & ts2 & Hout & Hpre).
  rewrite tokenizePythonLine_entries in Hout.
  set (ms := matchAllFrom (codePart line) 0) in *.
  set (cm := if (length (commentPart line) =? 0)%nat then []
             else [Some {| kind := Comment; content := commentPart line |}]) in *.
  assert (concat (m0 <$> ms) = codePart line) as Hall.
  { subst ms. destruct (matchAllFrom_tiled (codePart line) 0) as [_ ->]; [lia|done]. }
  destruct (decide (length ts1 ≤ length ms)%nat) as [Hk|Hk].
  - assert (ts1 = renderToken <$> (m0 <$> take (length ts1) ms)) as Hts1.
    { rewrite !fmap_take. apply (f_equal (take (length ts1))) in Hout.
      rewrite take_app_le in Hout by (by rewrite !length_fmap).
      by rewrite take_app_length in Hout. }
    exists (take (length ts1) ms).
    assert (concat (m0 <$> take (length ts1) ms) = pre) as Hc.
    { rewrite <- Hpre. rewrite Hts1 at 2. by rewrite rendered_texts. }
    split; [|done].
    rewrite <- (take_drop (length ts1) ms) at 1. f_equal.
    rewrite (matchAllFrom_split (codePart line) 0 (take (length ts1) ms) (drop (length ts1) ms))
      by (by rewrite take_drop).
    by rewrite Hc.
  - exfalso.
    assert (cm ≠ []) as Hcm.
    { intros Hnil. rewrite Hnil, app_nil_r in Hout.
      apply (f_equal length) in Hout. rewrite !length_fmap, length_app in Hout. lia. }
    assert (commentPart line ≠ []) as Hne.
    { intros Hnil. apply Hcm. subst cm. by rewrite Hnil. }
    assert (ts1 = (renderToken <$> (m0 <$> ms)) ++ cm) as Hts1.
    { assert (length cm = 1%nat) as Hlen.
      { subst cm. destruct (length (commentPart line) =? 0)%nat; done. }
      apply (f_equal (take (length ts1))) in Hout.
      rewrite take_app_length in Hout. rewrite <- Hout.
      apply take_ge. rewrite length_app, !length_fmap. lia. }
    apply (f_equal length) in Hpre.
    rewrite Hts1, fmap_app, concat_app, rendered_texts, Hall in Hpre.
    subst cm. rewrite comment_entry_text, Hcode, !length_app in Hpre.
    destruct (commentPart line); [done|]. simpl in Hpre. lia.
Qed.

Lemma matches_tokenStart line ms1 i :
  matchAllFrom (codePart line) 0 = ms1 ++ matchAllFrom (codePart line) i →
  tokenStart line (concat (m0 <$> ms1)).
Proof.
  intros Hms. eexists (renderToken <$> (m0 <$> ms1)), _. split.
  - rewrite tokenizePythonLine_entries, Hms, !fmap_app, <- app_assoc. done.
  - apply rendered_texts.
Qed.

Lemma tokenStart_nil line : tokenStart line [].
Proof. by exists [], (tokenizePythonLine line). Qed.

(** A token boundary is handed on over a text without quotes. *)
Lemma tokenStart_extend line before mid post :
  codePart line = before ++ mid ++ post →
  tokenStart line before →
  DQUOTE ∉ mid → SQUOTE ∉ mid →
  from_option isWhiteSpace false (head post) = false →
  from_option (λ c, isDigit c || (c =? DOT)) false (head post) = false →
  from_option isWordChar false (head post) = false
  ∨ from_option isWordChar false (last (before ++ mid)) = false →
  tokenStart line (before ++ mid).
Proof.
  intros Hcode Hstart Hdq Hsq Hws Hdig Hword.
  destruct (tokenStart_matches line before (mid ++ post) Hcode Hstart)
    as (ms1 & Hms1 & Hc1).
  set (s := codePart line) in *.
  set (i := length (before ++ mid)).
  assert (s !! i = head post) as Hi.
  { rewrite Hcode, app_assoc. subst i. rewrite lookup_app_r by lia.
    rewrite Nat.sub_diag. by destruct post. }
  assert (∀ k, (k < i)%nat → s !! k = (before ++ mid) !! k) as Hlt.
  { intros k Hk. rewrite Hcode, app_assoc. by rewrite lookup_app_l. }
  destruct (matchAllFrom_reach s (length before) i) as (ms2 & Hms2 & Hc2).
  { subst i. rewrite Hcode, !length_app. lia. }
  { intros a n Ha. apply (execToken_no_cross s (length before) i).
    - intros k c Hk Hkc. rewrite Hlt in Hkc by lia.
      rewrite lookup_app_r in Hkc by lia.
      apply list_elem_of_lookup_2 in Hkc.
      split; intros ->; done.
    - by rewrite Hi.
    - by rewrite Hi.
    - destruct Hword as [Hw|Hw]; [left; by rewrite Hi|].
      destruct (from_option isWordChar false (s !! i)) eqn:Hwi; [right|by left].
      unfold boundaryAt. rewrite Hwi.
      destruct i as [|i'] eqn:Hi'; [done|].
      rewrite Hlt by lia. rewrite last_lookup in Hw.
      fold i in Hw. rewrite Hi' in Hw. simpl in Hw. by rewrite Hw.
    - done. }
  assert (before ++ mid = concat (m0 <$> (ms1 ++ ms2))) as ->.
  { rewrite fmap_app, concat_app, Hc1, Hc2. f_equal.
    unfold substring. subst i. rewrite Hcode, drop_app_length, length_app.
    replace (length before + length mid - length before)%nat with (length mid) by lia.
    by rewrite take_app_length. }
  apply (matches_tokenStart line (ms1 ++ ms2) i).
  fold s. by rewrite Hms1, Hms2, app_assoc.
Qed.

(** The entry that starts at a token boundary is the rendered match found
    there. *)
Lemma tokenStart_after line pre t post sp :
  codePart line = pre ++ t ++ post →
  tokenStart line pre →
  matchAllFrom (codePart line) (length pre)
  = {| index := length pre; m0 := t |}
    :: matchAllFrom (codePart line) (length pre + length t) →
  renderToken t = Some sp →
  tokenAfter line pre sp (post ++ commentPart line).
Proof.
  intros Hcode Hstart Hm Hsp.
  destruct (tokenStart_matches line pre (t ++ post) Hcode Hstart)
    as (ms1 & Hms1 & Hc1).
  exists (renderToken <$> (m0 <$> ms1)),
    ((renderToken <$> (m0 <$> matchAllFrom (codePart line) (length pre + length t)))
     ++ (if (length (commentPart line) =? 0)%nat then []
         else [Some {| kind := Comment; content := commentPart line |}])).
  split; [|split].
  - rewrite tokenizePythonLine_entries, Hms1, Hm.
    rewrite !fmap_app, !fmap_cons, <- app_assoc. cbn [m0]. rewrite Hsp. done.
  - by rewrite rendered_texts.
  - rewrite fmap_app, concat_app, rendered_texts, comment_entry_text. f_equal.
    destruct (matchAllFrom_tiled (codePart line) (length pre + length t)) as [_ ->].
    { rewrite Hcode, !length_app. lia. }
    rewrite Hcode, app_assoc, <- length_app. apply drop_app_length.
Qed.

(** The entry found behind [pre], where the iteration finds the lexeme [t]
    there: behind a text without quotes, and behind any text without quotes
    that follows a token boundary. *)
Lemma entry_behind line pre t post sp :
  codePart line = pre ++ t ++ post →
  matchAllFrom (codePart line) (length pre)
  = {| index := length pre; m0 := t |}
    :: matchAllFrom (codePart line) (length pre + length t) →
  renderToken t = Some sp →
  from_option isWhiteSpace false (head (t ++ post)) = false →
  from_option (λ c, isDigit c || (c =? DOT)) false (head (t ++ post)) = false →
  from_option isWordChar false (head (t ++ post)) = false
  ∨ from_option isWordChar false (last pre) = false →
  (DQUOTE ∉ pre → SQUOTE ∉ pre → tokenAfter line pre sp (post ++ commentPart line))
  ∧ (∀ before mid,
       pre = before ++ mid → tokenStart line before →
       DQUOTE ∉ mid → SQUOTE ∉ mid →
       tokenAfter line pre sp (post ++ commentPart line)).
Proof.
  intros Hcode Hm Hsp Hws Hdig Hword.
  assert (∀ before mid,
            pre = before ++ mid → tokenStart line before →
            DQUOTE ∉ mid → SQUOTE ∉ mid →
            tokenAfter line pre sp (post ++ commentPart line)) as Hgen.
  { intros before mid Hpre Hstart Hdq Hsq.
    apply (tokenStart_after line pre t post sp); try done.
    rewrite Hpre. apply (tokenStart_extend line before mid (t ++ post)); try done.
    - by rewrite Hcode, Hpre, <- app_assoc.
    - by rewrite <- Hpre. }
  split; [|exact Hgen].
  intros Hdq Hsq. apply (Hgen [] pre); [done|apply tokenStart_nil|done|done].
Qed.
End BoundaryFacts.

(** * Facts about the inline renderer *)

Section InlineFacts.
Implicit Types (s t pre rest : jsstring) (c d : N) (p q k : nat)
  (parts : list jsstring).

Lemma execSpan_some s q k :
  execSpan s q = Some k →
  s !! q = Some BACKTICK ∧ (1 ≤ k)%nat ∧ s !! (q + 1 + k)%nat = Some BACKTICK.
Proof.
  unfold execSpan. destruct (s !! q) as [c|] eqn:Hc; [|done].
  destruct (N.eqb_spec c BACKTICK) as [->|]; [|done].
  destruct (run _ (drop (S q) s)) as [|m]; [done|].
  intros (j & Hj & Hk)%backtrack_some.
  rewrite lookup_drop in Hk.
  destruct (s !! (S q + j)%nat) as [d|] eqn:Hd; [|done].
  destruct (N.eqb_spec d BACKTICK) as [->|]; [|done].
  injection Hk as <-. split; [done|]. split; [lia|].
  by replace (q + 1 + j)%nat with (S q + j)%nat by lia.
Qed.

Lemma span_pieces s p q k :
  (p ≤ q)%nat → s !! q = Some BACKTICK → s !! (q + 1 + k)%nat = Some BACKTICK →
  substring s p q ++ [BACKTICK] ++ substring s (q + 1) (q + 1 + k)
    ++ [BACKTICK] ++ drop (q + k + 2) s = drop p s.
Proof.
  intros Hpq Hq Hk. unfold substring.
  rewrite <- (take_drop (q - p) (drop p s)) at 2. f_equal.
  rewrite drop_drop. replace (p + (q - p))%nat with q by lia.
  rewrite (drop_S _ _ _ Hq). simpl. f_equal.
  replace (q + 1 + k - (q + 1))%nat with k by lia.
  replace (q + 1)%nat with (S q) by lia.
  rewrite <- (take_drop k (drop (S q) s)) at 2. f_equal.
  rewrite drop_drop. replace (S q + k)%nat with (q + 1 + k)%nat by lia.
  rewrite (drop_S _ _ _ Hk). f_equal. f_equal. lia.
Qed.

Lemma splitLoop_step s p q :
  splitLoop s p q =
    if decide (q < length s)%nat then
      match execSpan s q with
      | None => splitLoop s p (S q)
      | Some k =>
          if decide (Nat.min (q + k + 2) (length s) = p) then splitLoop s p (S q)
          else substring s p q :: substring s (q + 1) (q + 1 + k)
               :: splitLoop s (Nat.min (q + k + 2) (length s))
                              (Nat.min (q + k + 2) (length s))
      end
    else [substring s p (length s)].
Proof.
  rewrite splitLoop_equation_1 at 1. destruct (decide (q < length s)%nat); simpl; [|done].
  destruct (execSpan s q) as [k|]; simpl; [|done].
  by destruct (decide (Nat.min (q + k + 2) (length s) = p)).
Qed.

(** Induction along the loop: [q] moves towards the end of [s]. *)
Lemma splitLoop_ind (P : nat → nat → list jsstring → Prop) s :
  (∀ p q, (p ≤ q)%nat → (length s ≤ q)%nat → P p q [substring s p (length s)]) →
  (∀ p q, (p ≤ q < length s)%nat → execSpan s q = None →
          P p (S q) (splitLoop s p (S q)) → P p q (splitLoop s p (S q))) →
  (∀ p q k, (p ≤ q < length s)%nat → execSpan s q = Some k →
            (q + k + 2 ≤ length s)%nat →
            P (q + k + 2)%nat (q + k + 2)%nat
              (splitLoop s (q + k + 2) (q + k + 2)) →
            P p q (substring s p q :: substring s (q + 1) (q + 1 + k)
                   :: splitLoop s (q + k + 2) (q + k + 2))) →
  ∀ p q, (p ≤ q)%nat → P p q (splitLoop s p q).
Proof.
  intros Hend Hskip Hhit p q.
  remember (length s - q)%nat as m eqn:Hm. revert p q Hm.
  induction m as [m IH] using lt_wf_ind. intros p q Hm Hpq.
  rewrite splitLoop_step.
  destruct (decide (q < length s)%nat) as [Hq|Hq]; [|apply Hend; lia].
  assert (p ≤ q < length s)%nat as Hpql by lia.
  destruct (execSpan s q) as [k|] eqn:Hk.
  - pose proof (execSpan_some _ _ _ Hk) as (_ & Hk1 & Hbt%lookup_lt_Some).
    replace (Nat.min (q + k + 2) (length s)) with (q + k + 2)%nat by lia.
    destruct (decide (q + k + 2 = p)%nat); [lia|].
    apply Hhit; [done..|lia|]. apply (IH (length s - (q + k + 2))%nat); lia.
  - apply Hskip; [done..|]. apply (IH (length s - S q)%nat); lia.
Qed.

Lemma splitLoop_rejoin s p q :
  (p ≤ q)%nat → rejoin (splitLoop s p q) = drop p s.
Proof.
  intros Hpq. revert p q Hpq.
  apply (splitLoop_ind (λ p q parts, rejoin parts = drop p s)).
  - intros p q Hpq Hq. simpl. rewrite app_nil_r. unfold substring.
    apply take_ge. rewrite length_drop. lia.
  - done.
  - intros p q k Hq Hk Hle IH.
    pose proof (execSpan_some _ _ _ Hk) as (Hbt & Hk1 & Hbt2).
    cbn [rejoin]. rewrite IH. apply span_pieces; [lia|done..].
Qed.

Lemma splitLoop_odd s p q : (p ≤ q)%nat → Nat.odd (length (splitLoop s p q)) = true.
Proof.
  revert p q. apply (splitLoop_ind (λ p q parts, Nat.odd (length parts) = true)); done.
Qed.

Lemma odd_mod2 n : (n mod 2 =? 1)%nat = Nat.odd n.
Proof. by rewrite <- Nat.bit0_eqb, Nat.bit0_odd. Qed.

Lemma imap_tagged parts n :
  imap (λ i seg, if ((n + i) mod 2 =? 1)%nat then CodeSeg seg else TextSeg seg) parts
  = tagged (Nat.odd n) parts.
Proof.
  revert n. induction parts as [|x parts IH]; intros n; [done|].
  rewrite imap_cons. cbn [tagged]. f_equal.
  - by rewrite Nat.add_0_r, odd_mod2.
  - rewrite Nat.negb_odd, <- Nat.odd_succ, <- IH.
    apply imap_ext. intros i y _. simpl. by replace (n + S i)%nat with (S (n + i)) by lia.
Qed.

Lemma RichText_tagged t : RichText t = tagged false (split t).
Proof. unfold RichText. by rewrite <- (imap_tagged _ 0). Qed.

Lemma tagged_lookup code parts i sg :
  tagged code parts !! i = Some sg → isCode sg = xorb code (Nat.odd i).
Proof.
  revert code i. induction parts as [|x parts IH]; intros code i; [done|].
  destruct i as [|i]; simpl.
  - intros [= <-]. by destruct code.
  - intros Hi%IH. rewrite Hi. rewrite Nat.odd_succ, <- Nat.negb_odd.
    by destruct code, (Nat.odd i).
Qed.

Lemma tagged_source parts :
  Nat.odd (length parts) = true → source (tagged false parts) = rejoin parts.
Proof.
  remember (length parts) as m eqn:Hm. revert parts Hm.
  induction m as [m IH] using lt_wf_ind. intros parts Hm Hodd.
  destruct parts as [|x [|c parts]]; [by subst m|by subst m; simpl; rewrite app_nil_r|].
  cbn [tagged negb rejoin]. unfold source in *. rewrite !bind_cons.
  rewrite (IH (length parts)); [|subst m; simpl; lia|done|].
  - cbn [segmentSource]. by rewrite <- !app_assoc.
  - subst m. simpl in Hodd. by rewrite Nat.odd_succ, Nat.even_succ in Hodd.
Qed.

Lemma splitLoop_none s p q :
  (∀ q', execSpan s q' = None) → (p ≤ q)%nat →
  splitLoop s p q = [substring s p (length s)].
Proof.
  intros Hnone. revert p q.
  apply (splitLoop_ind (λ p q parts, parts = [substring s p (length s)])).
  - done.
  - done.
  - intros p q k _ Hk. by rewrite Hnone in Hk.
Qed.

Lemma substring_shift pre s a b :
  substring (pre ++ s) (length pre + a) (length pre + b) = substring s a b.
Proof.
  unfold substring. rewrite drop_app_add.
  by replace (length pre + b - (length pre + a))%nat with (b - a)%nat by lia.
Qed.

Lemma execSpan_shift pre s q :
  execSpan (pre ++ s) (length pre + q) = execSpan s q.
Proof.
  unfold execSpan. rewrite lookup_app_r by lia.
  replace (length pre + q - length pre)%nat with q by lia.
  replace (S (length pre + q)) with (length pre + S q)%nat by lia.
  by rewrite drop_app_add.
Qed.

Lemma splitLoop_shift pre s p q :
  (p ≤ q)%nat →
  splitLoop (pre ++ s) (length pre + p) (length pre + q) = splitLoop s p q.
Proof.
  revert p q.
  apply (splitLoop_ind
           (λ p q parts,
              splitLoop (pre ++ s) (length pre + p) (length pre + q) = parts)).
  - intros p q Hpq Hq. rewrite splitLoop_step, length_app.
    destruct (decide _) as [?|_]; [lia|].
    by rewrite <- length_app, <- (substring_shift pre s p (length s)), <- length_app.
  - intros p q Hpq Hk IH. rewrite splitLoop_step, length_app, execSpan_shift, Hk.
    destruct (decide _) as [_|?]; [|lia].
    by replace (S (length pre + q)) with (length pre + S q)%nat by lia.
  - intros p q k Hpq Hk Hle IH.
    rewrite splitLoop_step, length_app, execSpan_shift, Hk.
    destruct (decide _) as [_|?]; [|lia].
    replace (Nat.min (length pre + q + k + 2) (length pre + length s))
      with (length pre + (q + k + 2))%nat by lia.
    destruct (decide _) as [?|_]; [lia|]. rewrite IH.
    rewrite substring_shift.
    replace (length pre + q + 1)%nat with (length pre + (q + 1))%nat by lia.
    replace (length pre + (q + 1) + k)%nat with (length pre + (q + 1 + k))%nat by lia.
    by rewrite substring_shift.
Qed.

Lemma execSpan_not_backtick s q :
  s !! q ≠ Some BACKTICK → execSpan s q = None.
Proof.
  intros Hq. destruct (execSpan s q) as [k|] eqn:Hk; [|done].
  by apply execSpan_some in Hk as (? & _).
Qed.

Lemma splitLoop_plain pl rest q :
  BACKTICK ∉ pl → (q ≤ length pl)%nat →
  splitLoop (pl ++ rest) 0 q = splitLoop (pl ++ rest) 0 (length pl).
Proof.
  intros Hpl. remember (length pl - q)%nat as m eqn:Hm. revert q Hm.
  induction m as [|m IH]; intros q Hm Hq.
  - by replace q with (length pl) by lia.
  - rewrite splitLoop_step, length_app.
    destruct (decide _) as [_|?]; [|lia].
    rewrite execSpan_not_backtick; [apply IH; lia|].
    rewrite lookup_app_l by lia. intros Hbt.
    apply Hpl. by eapply list_elem_of_lookup_2.
Qed.

Lemma run_stop (cls : N → bool) (a : jsstring) c rest :
  Forall (λ x, cls x = true) a → cls c = false → run cls (a ++ c :: rest) = length a.
Proof.
  intros Ha Hc. induction Ha as [|x a Hx _ IH]; simpl.
  - by rewrite Hc.
  - by rewrite Hx, IH.
Qed.

Lemma backtrack_first {A} (k : nat → option A) lo span r :
  k (lo + span)%nat = Some r → backtrack k lo span = Some r.
Proof. intros Hk. destruct span; simpl; by rewrite Hk. Qed.

Lemma no_backtick_run (a : jsstring) :
  BACKTICK ∉ a → Forall (λ x, negb (x =? BACKTICK) = true) a.
Proof.
  intros Ha. apply Forall_forall. intros x Hx.
  destruct (N.eqb_spec x BACKTICK) as [->|]; done.
Qed.

Lemma execSpan_hit pl code rest :
  BACKTICK ∉ code → code ≠ [] →
  execSpan (pl ++ [BACKTICK] ++ code ++ [BACKTICK] ++ rest) (length pl)
  = Some (length code).
Proof.
  intros Hc Hne.
  change (execSpan (pl ++ BACKTICK :: code ++ BACKTICK :: rest) (length pl)
          = Some (length code)).
  unfold execSpan.
  rewrite list_lookup_middle by done. rewrite N.eqb_refl, drop_past_cons.
  rewrite (run_stop _ code); [|by apply no_backtick_run|done].
  destruct code as [|c0 code]; [done|]. cbn [length].
  apply backtrack_first. replace (1 + length code)%nat with (length (c0 :: code)) by done.
  rewrite list_lookup_middle by done. by rewrite N.eqb_refl.
Qed.

(** A complete code span is split off, and the split goes on behind it. *)
Lemma split_span pl code rest :
  BACKTICK ∉ pl → BACKTICK ∉ code → code ≠ [] →
  split (pl ++ [BACKTICK] ++ code ++ [BACKTICK] ++ rest) = pl :: code :: split rest.
Proof.
  intros Hpl Hc Hne. unfold split.
  rewrite (splitLoop_plain pl) by (done || lia).
  rewrite splitLoop_step, (execSpan_hit pl code rest Hc Hne).
  change (pl ++ [BACKTICK] ++ code ++ [BACKTICK] ++ rest)
    with (pl ++ BACKTICK :: code ++ BACKTICK :: rest).
  assert (length (pl ++ BACKTICK :: code ++ BACKTICK :: rest)
          = (length pl + length code + 2 + length rest)%nat) as Hlen.
  { repeat (rewrite ?length_app; cbn [length]). lia. }
  rewrite Hlen.
  destruct (decide _) as [_|?]; [|lia].
  destruct (decide _) as [?|_]; [lia|].
  replace (Nat.min _ _) with (length pl + length code + 2)%nat by lia.
  f_equal; [|f_equal].
  - unfold substring. by rewrite drop_0, Nat.sub_0_r, take_app_length.
  - unfold substring. replace (length pl + 1)%nat with (S (length pl)) by lia.
    rewrite drop_past_cons.
    replace (S (length pl) + length code - S (length pl))%nat with (length code) by lia.
    by rewrite take_app_length.
  - pose proof (splitLoop_shift (pl ++ BACKTICK :: code ++ [BACKTICK]) rest 0 0) as Hs.
    assert (length (pl ++ BACKTICK :: code ++ [BACKTICK])
            = (length pl + length code + 2)%nat) as Hlen2.
    { repeat (rewrite ?length_app; cbn [length]). lia. }
    rewrite Hlen2, Nat.add_0_r in Hs. rewrite <- Hs by lia. f_equal.
    rewrite <- !app_assoc. simpl. by rewrite <- !app_assoc.
Qed.

Lemma single_backtick txt t j :
  BACKTICK ∉ txt → BACKTICK ∉ t →
  (txt ++ BACKTICK :: t) !! j = Some BACKTICK → j = length txt.
Proof.
  intros Hc Ht Hj. destruct (Nat.lt_trichotomy j (length txt)) as [Hlt|[->|Hgt]]; [|done|].
  - rewrite lookup_app_l in Hj by done. apply list_elem_of_lookup_2 in Hj. done.
  - rewrite lookup_app_r in Hj by lia.
    destruct (j - length txt)%nat as [|i] eqn:E; [lia|]. simpl in Hj.
    apply list_elem_of_lookup_2 in Hj. done.
Qed.

(** A lone backtick opens nothing. *)
Lemma split_dangling txt t :
  BACKTICK ∉ txt → BACKTICK ∉ t →
  split (txt ++ [BACKTICK] ++ t) = [txt ++ [BACKTICK] ++ t].
Proof.
  intros Hc Ht. unfold split. rewrite splitLoop_none; [|intros q|lia].
  - unfold substring. by rewrite drop_0, Nat.sub_0_r, take_ge.
  - destruct (execSpan _ q) as [k|] eqn:Hk; [|done].
    apply execSpan_some in Hk as (H1 & Hk1 & H2).
    apply (single_backtick txt t) in H1, H2; [lia|done..].
Qed.

Lemma RichText_spans spans txt t :
  Forall wellFormedSpan spans → BACKTICK ∉ txt → BACKTICK ∉ t →
  RichText ((spans ≫= spanSource) ++ txt ++ [BACKTICK] ++ t)
  = (spans ≫= spanSegments) ++ [TextSeg (txt ++ [BACKTICK] ++ t)].
Proof.
  intros Hsp Hc Ht. rewrite RichText_tagged.
  induction Hsp as [|[pl code] spans (Hpl & Hcode & Hne) _ IH].
  - change (tagged false (split (txt ++ [BACKTICK] ++ t))
            = [TextSeg (txt ++ [BACKTICK] ++ t)]).
    by rewrite split_dangling.
  - rewrite !bind_cons. unfold spanSource at 1. cbn [fst snd].
    rewrite <- !app_assoc. rewrite split_span by done.
    cbn [tagged negb]. unfold spanSegments at 1. cbn [fst snd app].
    do 2 f_equal. exact IH.
Qed.
End InlineFacts.

Lemma tagged_length code (parts : list jsstring) :
  length (tagged code parts) = length parts.
Proof.
  revert code. induction parts as [|x parts IH]; intros code; simpl; [done|].
  by rewrite IH.
Qed.

(** * The sectionizer: claims C1, C9, C3 and C5 *)

(** C1. Partition property.  For every sequence of blocks, the block lists
    of the returned sections, concatenated in order, are the input without
    its top-level headings, in the same order and unchanged; and with every
    title written back as a heading in front of its section (the leading
    section opened without a heading has none), the sections are the input
    itself.  So the headings consumed as titles are exactly the top-level
    ones, and nothing else is dropped, duplicated, reordered or altered. *)
Theorem sectionize_partition `{UnicodeOps} (bs : list TopicBlock) :
  concat (blocks <$> sectionize (Some <$> bs))
    = filter (λ b, isTopLevel b = false) bs
  ∧ unsection (leadingAnon bs) (sectionize (Some <$> bs)) = bs.
Proof. split; [apply sectionize_blocks|apply sectionize_unsection]. Qed.

(** C9, as the claim words it, fails: a top-level heading whose text is
    empty opens a section with the empty title wherever it stands. *)
Lemma empty_title_counterexample :
  sectionize (Some <$> [BlockH (lit "A"); BlockH []])
    = [ {| title := lit "A"; blocks := [] |}; {| title := []; blocks := [] |} ]
  ∧ ¬ emptyTitleOnlyFirst (sectionize (Some <$> [BlockH (lit "A"); BlockH []])).
Proof.
  assert (sectionize (Some <$> [BlockH (lit "A"); BlockH []])
          = [ {| title := lit "A"; blocks := [] |}; {| title := []; blocks := [] |} ])
    as Hs by (vm_compute; reflexivity).
  split; [exact Hs|]. rewrite Hs. intros Hfirst.
  specialize (Hfirst 1%nat {| title := []; blocks := [] |} eq_refl eq_refl).
  discriminate Hfirst.
Qed.

(** C9, amended.  A section is opened without a heading only while there is
    no section yet: the titles of the output are the empty title of such a
    leading section, if the input does not start with a top-level heading,
    followed by the texts of the top-level headings in input order.  Where
    no top-level heading has an empty text, the only section with an empty
    title is therefore the first one. *)
Theorem anonymous_section_first `{UnicodeOps} (bs : list TopicBlock) :
  title <$> sectionize (Some <$> bs)
    = (if leadingAnon bs then [[]] else [])
      ++ (headingText <$> filter (λ b, isTopLevel b = true) bs)
  ∧ (Forall (λ b, isTopLevel b = true → headingText b ≠ []) bs →
     emptyTitleOnlyFirst (sectionize (Some <$> bs))).
Proof.
  split; [apply sectionize_titles|].
  intros Hne i sec Hi Ht.
  assert ((title <$> sectionize (Some <$> bs)) !! i = Some []) as Hl
    by (by rewrite list_lookup_fmap, Hi; simpl; rewrite Ht).
  rewrite sectionize_titles in Hl.
  destruct i as [|i]; [done|]. exfalso.
  assert (∃ b, b ∈ bs ∧ isTopLevel b = true ∧ headingText b = []) as (b & Hb & Htop & Hnil).
  { assert (∃ j, (headingText <$> filter (λ b, isTopLevel b = true) bs) !! j = Some [])
      as [j Hj].
    { destruct (leadingAnon bs); [by exists i|by exists (S i)]. }
    apply list_lookup_fmap_Some in Hj as (b & Heq & Hb).
    apply list_elem_of_lookup_2, list_elem_of_filter in Hb as [? ?]. by exists b. }
  rewrite Forall_forall in Hne. by apply (Hne b Hb Htop).
Qed.

Lemma anonymous_section_first_witness :
  Forall (λ b, isTopLevel b = true → headingText b ≠ [])
    [BlockP (lit "intro"); BlockH (lit "Tema 4"); BlockH (lit "4.1. Shell")]
  ∧ title <$> sectionize (Some <$> [BlockP (lit "intro"); BlockH (lit "Tema 4");
                                    BlockH (lit "4.1. Shell")])
    = [[]; lit "Tema 4"]
  ∧ emptyTitleOnlyFirst
      (sectionize (Some <$> [BlockP (lit "intro"); BlockH (lit "Tema 4");
                             BlockH (lit "4.1. Shell")])).
Proof.
  assert (Forall (λ b, isTopLevel b = true → headingText b ≠ [])
            [BlockP (lit "intro"); BlockH (lit "Tema 4"); BlockH (lit "4.1. Shell")]) as Hf.
  { repeat constructor; vm_compute; intros; discriminate. }
  split; [exact Hf|].
  destruct (anonymous_section_first
              [BlockP (lit "intro"); BlockH (lit "Tema 4"); BlockH (lit "4.1. Shell")])
    as [Ht Hfirst].
  split; [|exact (Hfirst Hf)].
  vm_compute. reflexivity.
Defined.

(** C3, as the claim words it, fails: [isSubHeading] asks for a second dot
    behind the second run of digits, so neither of the two headings the
    claim names is a sub-heading; each opens a titled section. *)
Lemma subheading_counterexample :
  DigitsDotDigits (trim (lit "40.5"))
  ∧ isSubHeading (lit "40.5") = false
  ∧ sectionize [Some (BlockH (lit "40.5"))]
    = [ {| title := lit "40.5"; blocks := [] |} ]
  ∧ DigitsDotDigits (trim (lit "4.2 Something"))
  ∧ isSubHeading (lit "4.2 Something") = false
  ∧ sectionize [Some (BlockH (lit "4.2 Something"))]
    = [ {| title := lit "4.2 Something"; blocks := [] |} ].
Proof.
  split; [|split; [|split; [|split; [|split]]]]; try (vm_compute; reflexivity).
  - exists (lit "40"), (lit "5"), []. by vm_compute.
  - exists (lit "4"), (lit "2"), (lit " Something"). by vm_compute.
Qed.

(** C3, amended.  [isSubHeading] holds exactly for the headings whose
    trimmed text starts with two non-empty runs of ASCII digits, each
    followed by a dot; the sectionizer appends such a heading to the block
    list of the current section (opening a section with the empty title when
    there is none) and starts no titled section for it. *)
Theorem subheading_numeric_pattern `{UnicodeOps} (text : jsstring) :
  (isSubHeading text = true ↔ SubHeadingShape (trim text))
  ∧ (SubHeadingShape (trim text) →
     ∀ bs, sectionize (Some <$> (bs ++ [BlockH text]))
           = appendToCurrent (sectionize (Some <$> bs)) (BlockH text)).
Proof.
  split; [apply isSubHeading_shape|].
  intros Hshape bs. rewrite sectionize_snoc. unfold snocBlock, isTopLevel.
  assert (isSubHeading (trim text) = true) as ->; [|done].
  apply isSubHeading_shape. by rewrite trim_idem.
Qed.

Lemma subheading_numeric_pattern_witness :
  SubHeadingShape (trim (lit "4.2. El color del texto"))
  ∧ isSubHeading (lit "4.2. El color del texto") = true
  ∧ sectionize (Some <$> ([BlockH (lit "4. Primer contacto"); BlockP (lit "x")]
                          ++ [BlockH (lit "4.2. El color del texto")]))
    = [ {| title := lit "4. Primer contacto";
           blocks := [BlockP (lit "x"); BlockH (lit "4.2. El color del texto")] |} ].
Proof.
  assert (SubHeadingShape (trim (lit "4.2. El color del texto"))) as Hs.
  { exists (lit "4"), (lit "2"), (lit " El color del texto"). by vm_compute. }
  destruct (subheading_numeric_pattern (lit "4.2. El color del texto")) as [Hiff Happ].
  split; [exact Hs|]. split; [by apply Hiff|].
  rewrite (Happ Hs). vm_compute. reflexivity.
Defined.

(** C5, as the claim words it, fails: the white space between the word and
    the digit may be missing. *)
Lemma exercise_counterexample :
  isExerciseHeading (lit "Ejercicio1") = true
  ∧ ¬ ExerciseBySpec (toLowerCase (trim (lit "Ejercicio1")))
  ∧ sectionize (Some <$> [BlockH (lit "Tema"); BlockH (lit "Ejercicio1")])
    = [ {| title := lit "Tema"; blocks := [BlockH (lit "Ejercicio1")] |} ].
Proof.
  split; [by vm_compute|]. split; [|by vm_compute].
  intros (w & d & tl & Heq & Hw & _). vm_compute in Heq.
  destruct w as [|? w]; [done|]. injection Heq as _ Heq.
  by destruct w.
Qed.

(** C5, amended.  [isExerciseHeading] holds exactly when the trimmed text,
    lower-cased, is the word ejercicio, then white space (possibly none),
    then an ASCII digit, then anything.  So the heading Ejercicio 1 followed
    by a middle dot and a title is a sub-heading, appended to the current
    section, and the heading Ejercicios is a top-level heading that opens a
    titled section. *)
Theorem exercise_heading_rule `{UnicodeOps} (t : jsstring) :
  (isExerciseHeading t = true ↔ ExerciseShape (toLowerCase (trim t)))
  ∧ @isExerciseHeading Latin1 (lit "Ejercicio 1 " ++ [183] ++ lit " Something") = true
  ∧ @sectionize Latin1
      (Some <$> [BlockH (lit "5. Practica");
                 BlockH (lit "Ejercicio 1 " ++ [183] ++ lit " Something")])
    = [ {| title := lit "5. Practica";
           blocks := [BlockH (lit "Ejercicio 1 " ++ [183] ++ lit " Something")] |} ]
  ∧ @isExerciseHeading Latin1 (lit "Ejercicios") = false
  ∧ @sectionize Latin1 (Some <$> [BlockP (lit "x"); BlockH (lit "Ejercicios")])
    = [ {| title := []; blocks := [BlockP (lit "x")] |};
        {| title := lit "Ejercicios"; blocks := [] |} ].
Proof.
  split; [apply isExerciseHeading_shape|].
  repeat split; vm_compute; reflexivity.
Qed.

(** * The tokenizer: claims C2, C4 and C6 *)

(** C2. Losslessness and totality.  For every line (with or without a
    line-break character) [tokenizePythonLine] returns a sequence of tokens:
    no entry is null, no token is empty, the token texts concatenated are the
    line, and the texts cover the line from index 0 to its end, each starting
    where the one before it ended, without gap or overlap. *)
Theorem tokenizePythonLine_lossless (line : jsstring) :
  Forall (λ o, ∃ sp, o = Some sp ∧ content sp ≠ []) (tokenizePythonLine line)
  ∧ concat (spanText <$> tokenizePythonLine line) = line
  ∧ covers line 0 (spanText <$> tokenizePythonLine line).
Proof.
  split; [apply tokenizePythonLine_some|].
  split; [apply tokenizePythonLine_concat|].
  apply covers_concat; [|lia|by rewrite tokenizePythonLine_concat].
  apply Forall_fmap. eapply Forall_impl; [apply tokenizePythonLine_some|].
  by intros o (sp & -> & Hne).
Qed.

(** C4, as the claim words it, fails: the quoted-string alternatives of the
    pattern need the closing quote, so an opening quote without one is
    matched alone by the last alternative; the string-literal token is the
    quote character only and the rest of the line is tokenized on. *)
Lemma unterminated_string_counterexample :
  tokenizePythonLine (lit "x = " ++ [DQUOTE] ++ lit "abc")
    = [ Some {| kind := Plain; content := lit "x" |};
        Some {| kind := Whitespace; content := lit " " |};
        Some {| kind := Plain; content := lit "=" |};
        Some {| kind := Whitespace; content := lit " " |};
        Some {| kind := StringLiteral; content := [DQUOTE] |};
        Some {| kind := Plain; content := lit "abc" |} ]
  ∧ Some {| kind := StringLiteral; content := [DQUOTE] ++ lit "abc" |}
    ∉ tokenizePythonLine (lit "x = " ++ [DQUOTE] ++ lit "abc").
Proof.
  assert (tokenizePythonLine (lit "x = " ++ [DQUOTE] ++ lit "abc")
    = [ Some {| kind := Plain; content := lit "x" |};
        Some {| kind := Whitespace; content := lit " " |};
        Some {| kind := Plain; content := lit "=" |};
        Some {| kind := Whitespace; content := lit " " |};
        Some {| kind := StringLiteral; content := [DQUOTE] |};
        Some {| kind := Plain; content := lit "abc" |} ]) as Ht
    by (vm_compute; reflexivity).
  split; [exact Ht|]. rewrite Ht. intros Hin.
  repeat (apply elem_of_cons in Hin as [Hin|Hin]; [discriminate Hin|]).
  by apply elem_of_nil in Hin.
Qed.

(** C4, amended.  The tokenizer never fails on a line with an unterminated
    quote: every entry it returns is a token.  Where a quote character of
    the code part has no unescaped closing quote behind it, the token that
    starts at it is the quote character alone, classified as a string
    literal, and the tokens behind it show the rest of the line.  A token
    starts at the quote when no quote stands before it in the code part,
    and when only text without quotes stands between it and a place where a
    token starts. *)
Theorem unterminated_quote_token (line pre rest : jsstring) (q : N) :
  q = DQUOTE ∨ q = SQUOTE →
  codePart line = pre ++ q :: rest →
  stringBody q rest = None →
  (DQUOTE ∉ pre → SQUOTE ∉ pre →
   tokenAfter line pre {| kind := StringLiteral; content := [q] |}
     (rest ++ commentPart line))
  ∧ (∀ before mid,
       pre = before ++ mid → tokenStart line before →
       DQUOTE ∉ mid → SQUOTE ∉ mid →
       tokenAfter line pre {| kind := StringLiteral; content := [q] |}
         (rest ++ commentPart line))
  ∧ Forall (λ o, ∃ sp, o = Some sp ∧ content sp ≠ []) (tokenizePythonLine line).
Proof.
  intros Hq Hcode Hbody.
  assert (codePart line !! length pre = Some q) as Hi
    by (rewrite Hcode; by apply list_lookup_middle).
  apply and_assoc. split; [|apply tokenizePythonLine_some].
  apply (entry_behind line pre [q] rest).
  - done.
  - rewrite (matchAllFrom_open_quote _ _ q Hq Hi).
    + f_equal. f_equal. simpl. lia.
    + rewrite Hcode, cons_middle, app_assoc.
      by rewrite (drop_app_length' (pre ++ [q]) rest)
        by (rewrite length_app; simpl; lia).
  - by destruct Hq as [-> | ->].
  - by destruct Hq as [-> | ->].
  - by destruct Hq as [-> | ->].
  - left. by destruct Hq as [-> | ->].
Qed.

Lemma unterminated_quote_token_witness :
  (DQUOTE = DQUOTE ∨ DQUOTE = SQUOTE)
  ∧ codePart (lit "x = " ++ [DQUOTE] ++ lit "abc") = lit "x = " ++ DQUOTE :: lit "abc"
  ∧ stringBody DQUOTE (lit "abc") = None
  ∧ (DQUOTE ∉ lit "x = ") ∧ (SQUOTE ∉ lit "x = ")
  ∧ tokenAfter (lit "x = " ++ [DQUOTE] ++ lit "abc") (lit "x = ")
      {| kind := StringLiteral; content := [DQUOTE] |} (lit "abc")
  ∧ codePart (lit "a = 'x' + " ++ [DQUOTE] ++ lit "y")
    = (lit "a = 'x'" ++ lit " + ") ++ DQUOTE :: lit "y"
  ∧ stringBody DQUOTE (lit "y") = None
  ∧ tokenStart (lit "a = 'x' + " ++ [DQUOTE] ++ lit "y") (lit "a = 'x'")
  ∧ (DQUOTE ∉ lit " + ") ∧ (SQUOTE ∉ lit " + ")
  ∧ tokenAfter (lit "a = 'x' + " ++ [DQUOTE] ++ lit "y") (lit "a = 'x'" ++ lit " + ")
      {| kind := StringLiteral; content := [DQUOTE] |} (lit "y").
Proof.
  assert (DQUOTE ∉ lit "x = ") as Hd by compute_done.
  assert (SQUOTE ∉ lit "x = ") as Hs by compute_done.
  assert (DQUOTE ∉ lit " + ") as Hd' by compute_done.
  assert (SQUOTE ∉ lit " + ") as Hs' by compute_done.
  assert (tokenStart (lit "a = 'x' + " ++ [DQUOTE] ++ lit "y") (lit "a = 'x'")) as Hst.
  { exists (take 5 (tokenizePythonLine (lit "a = 'x' + " ++ [DQUOTE] ++ lit "y"))),
      (drop 5 (tokenizePythonLine (lit "a = 'x' + " ++ [DQUOTE] ++ lit "y"))).
    split; [by rewrite take_drop|reflexivity]. }
  split; [by left|]. split; [reflexivity|]. split; [reflexivity|].
  split; [exact Hd|]. split; [exact Hs|].
  destruct (unterminated_quote_token (lit "x = " ++ [DQUOTE] ++ lit "abc")
              (lit "x = ") (lit "abc") DQUOTE (or_introl eq_refl) eq_refl eq_refl)
    as (Hfirst & _ & _).
  split; [exact (Hfirst Hd Hs)|].
  split; [reflexivity|]. split; [reflexivity|]. split; [exact Hst|].
  split; [exact Hd'|]. split; [exact Hs'|].
  destruct (unterminated_quote_token (lit "a = 'x' + " ++ [DQUOTE] ++ lit "y")
              (lit "a = 'x'" ++ lit " + ") (lit "y") DQUOTE
              (or_introl eq_refl) eq_refl eq_refl)
    as (_ & Hnext & _).
  exact (Hnext (lit "a = 'x'") (lit " + ") eq_refl Hst Hd' Hs').
Defined.

(** C6. Classification priority.  Every lexeme of the code part is rendered
    with the kind the first applicable rule gives it: white-space run, then
    leading quote, then leading digit, then keyword, then builtin, else
    plain.  The line print("Hola, Python") yields the builtin print, the
    plain (, the string literal "Hola, Python" and the plain ). *)
Theorem classification_priority (line : jsstring) :
  renderToken <$> tokens line
    = (λ t, Some {| kind := classifyBySpec t; content := t |}) <$> tokens line
  ∧ tokenizePythonLine (lit "print(" ++ [DQUOTE] ++ lit "Hola, Python" ++ [DQUOTE] ++ lit ")")
    = [ Some {| kind := Builtin; content := lit "print" |};
        Some {| kind := Plain; content := lit "(" |};
        Some {| kind := StringLiteral;
                content := [DQUOTE] ++ lit "Hola, Python" ++ [DQUOTE] |};
        Some {| kind := Plain; content := lit ")" |} ].
Proof. split; [apply rendered_classified|vm_compute; reflexivity]. Qed.

(** * The inline renderer: claim C7 *)

(** C7. Alternation and round trip.  For every text the segments are in
    turn plain and code, the first and the last one plain (the segment at
    index [i] is code exactly when [i] is odd, and their number is odd);
    with the backticks put back around the code segments, the segments
    concatenated are the text.  A backtick without a partner behind the
    last complete code span opens no span: the chunk it stands in is
    rendered as one plain segment, backtick included.  The text
    usa `IDLE` y guarda yields plain usa, code IDLE, plain y guarda. *)
Theorem RichText_roundtrip (text : jsstring) :
  source (RichText text) = text
  ∧ Nat.odd (length (RichText text)) = true
  ∧ (∀ i sg, RichText text !! i = Some sg → isCode sg = Nat.odd i)
  ∧ (∀ spans txt t,
       Forall wellFormedSpan spans → BACKTICK ∉ txt → BACKTICK ∉ t →
       RichText ((spans ≫= spanSource) ++ txt ++ [BACKTICK] ++ t)
       = (spans ≫= spanSegments) ++ [TextSeg (txt ++ [BACKTICK] ++ t)])
  ∧ RichText (lit "usa `IDLE` y guarda")
    = [TextSeg (lit "usa "); CodeSeg (lit "IDLE"); TextSeg (lit " y guarda")].
Proof.
  assert (Nat.odd (length (split text)) = true) as Hodd
    by (apply splitLoop_odd; lia).
  split; [|split; [|split; [|split]]].
  - rewrite RichText_tagged, tagged_source by done.
    unfold split. rewrite splitLoop_rejoin by lia. apply drop_0.
  - by rewrite RichText_tagged, tagged_length.
  - intros i sg Hi. rewrite RichText_tagged in Hi.
    by apply tagged_lookup in Hi.
  - apply RichText_spans.
  - vm_compute. reflexivity.
Qed.

Lemma RichText_roundtrip_witness :
  Forall wellFormedSpan [(lit "usa ", lit "IDLE")]
  ∧ (BACKTICK ∉ lit " y ") ∧ (BACKTICK ∉ lit "F5")
  ∧ RichText (lit "usa `IDLE` y `F5")
    = [TextSeg (lit "usa "); CodeSeg (lit "IDLE"); TextSeg (lit " y `F5")]
  ∧ RichText (lit "usa `IDLE` y `F5") !! 1%nat = Some (CodeSeg (lit "IDLE"))
  ∧ isCode (CodeSeg (lit "IDLE")) = Nat.odd 1.
Proof.
  assert (Forall wellFormedSpan [(lit "usa ", lit "IDLE")]) as Hsp.
  { repeat constructor; compute_done. }
  assert (BACKTICK ∉ lit " y ") as H1 by compute_done.
  assert (BACKTICK ∉ lit "F5") as H2 by compute_done.
  destruct (RichText_roundtrip (lit "usa `IDLE` y `F5")) as (_ & _ & Halt & _).
  destruct (RichText_roundtrip []) as (_ & _ & _ & Hdangling & _).
  split; [exact Hsp|]. split; [exact H1|]. split; [exact H2|].
  split; [exact (Hdangling [(lit "usa ", lit "IDLE")] (lit " y ") (lit "F5") Hsp H1 H2)|].
  split; [reflexivity|].
  apply (Halt 1%nat). reflexivity.
Defined.

(** * Colour names: claims C8 and C10 *)

(** C8, as the claim words it, fails: the variant with three spaces is not
    the enumerated name, so it gets the default identifier and not the one of
    rojo oscuro. *)
Lemma spacing_variant_counterexample :
  ColorName (lit "rojo oscuro") = lit "text-red-800"
  ∧ ColorName (lit "rojo   oscuro") = lit "text-slate-900"
  ∧ ColorName (lit "rojo   oscuro") ≠ ColorName (lit "rojo oscuro").
Proof.
  split; [by vm_compute|]. split; [by vm_compute|]. by vm_compute.
Qed.

(** C8, amended.  The case variant Rojo Oscuro resolves to the same
    display-colour identifier as rojo oscuro, and so does every text whose
    normal form is that name.  Normalization leaves the inner white space as
    it is, so the variant with three spaces is its own normal form, matches
    no enumerated name and gets the default identifier. *)
Theorem color_case_variant `{UnicodeOps} (name : jsstring) :
  (normalize name = lit "rojo oscuro" → ColorName name = lit "text-red-800")
  ∧ @ColorName Latin1 (lit "Rojo Oscuro") = @ColorName Latin1 (lit "rojo oscuro")
  ∧ @ColorName Latin1 (lit "rojo oscuro") = lit "text-red-800"
  ∧ @normalize Latin1 (lit "rojo   oscuro") = lit "rojo   oscuro"
  ∧ @ColorName Latin1 (lit "rojo   oscuro") = lit "text-slate-900".
Proof.
  split; [|repeat split; vm_compute; reflexivity].
  intros Hn. unfold ColorName. rewrite Hn. vm_compute. reflexivity.
Qed.

Lemma color_case_variant_witness :
  normalize (lit "ROJO Oscuro") = lit "rojo oscuro"
  ∧ ColorName (lit "ROJO Oscuro") = lit "text-red-800".
Proof.
  split; [reflexivity|].
  exact (proj1 (color_case_variant (lit "ROJO Oscuro")) eq_refl).
Defined.

(** C10. The default collides with negro.  Every text whose normal form is
    none of the seven enumerated names gets the identifier text-slate-900,
    which is the identifier of negro. *)
Theorem ColorName_default_is_negro `{UnicodeOps} (name : jsstring) :
  normalize name ∉ colorNames →
  ColorName name = lit "text-slate-900"
  ∧ ColorName name = @ColorName Latin1 (lit "negro").
Proof.
  intros Hn.
  assert (ColorName name = lit "text-slate-900") as Hc.
  { unfold ColorName, streq.
    repeat (case_bool_decide as Heq;
            [exfalso; apply Hn; rewrite Heq; compute_done|clear Heq]).
    reflexivity. }
  split; [exact Hc|]. rewrite Hc. by vm_compute.
Qed.

Lemma ColorName_default_is_negro_witness :
  (normalize (lit "Gris") ∉ colorNames)
  ∧ ColorName (lit "Gris") = lit "text-slate-900"
  ∧ ColorName (lit "Gris") = ColorName (lit "negro").
Proof.
  assert (normalize (lit "Gris") ∉ colorNames) as Hn
    by compute_done.
  split; [exact Hn|]. exact (ColorName_default_is_negro (lit "Gris") Hn).
Defined.

(** * Facts about splitting on a separator *)

Section SplitFacts.
Implicit Types (s cur a r : jsstring) (sep c : N).

Lemma splitLines_splitOn cur s : splitLines cur s = splitOn 10 cur s.
Proof.
  revert cur. induction s as [|c s IH]; intros cur; simpl; [done|].
  by rewrite !IH.
Qed.

Lemma splitOn_nonempty sep cur s : splitOn sep cur s ≠ [].
Proof.
  revert cur. induction s as [|c s IH]; intros cur; simpl; [done|].
  destruct (c =? sep); [done|apply IH].
Qed.

Lemma splitOn_join sep cur s :
  joinWith sep (splitOn sep cur s) = reverse cur ++ s.
Proof.
  revert cur. induction s as [|c s IH]; intros cur; simpl.
  - by rewrite app_nil_r.
  - destruct (N.eqb_spec c sep) as [->|Hc].
    + pose proof (splitOn_nonempty sep [] s) as Hne.
      specialize (IH []). destruct (splitOn sep [] s) as [|p ps]; [done|].
      change (joinWith sep (reverse cur :: p :: ps))
        with (reverse cur ++ sep :: joinWith sep (p :: ps)).
      by rewrite IH.
    + rewrite IH, reverse_cons, <- app_assoc. done.
Qed.

Lemma splitOn_units sep cur s (p : jsstring) c :
  p ∈ splitOn sep cur s → c ∈ p → (c ∈ cur ∨ c ∈ s) ∧ (sep ∉ cur → c ≠ sep).
Proof.
  revert cur. induction s as [|x s IH]; intros cur; simpl.
  - intros ->%list_elem_of_singleton Hc. rewrite elem_of_reverse in Hc.
    split; [by left|]. intros Hn Heq. apply Hn. by rewrite <- Heq.
  - destruct (N.eqb_spec x sep) as [->|Hx].
    + intros [->|Hp]%elem_of_cons Hc.
      * rewrite elem_of_reverse in Hc. split; [by left|].
        intros Hn Heq. apply Hn. by rewrite <- Heq.
      * destruct (IH [] Hp Hc) as [[Hin|Hin] Hne].
        -- by apply elem_of_nil in Hin.
        -- split; [right; by apply elem_of_cons; right|].
           intros _. apply Hne, not_elem_of_nil.
    + intros Hp Hc. destruct (IH (x :: cur) Hp Hc) as [Hin Hne]. split.
      * destruct Hin as [[->|Hin]%elem_of_cons|Hin].
        -- right. apply elem_of_cons. by left.
        -- by left.
        -- right. apply elem_of_cons. by right.
      * intros Hn. apply Hne. apply not_elem_of_cons. split; [congruence|done].
Qed.

Lemma splitOn_piece sep cur a r :
  sep ∉ a →
  splitOn sep cur (a ++ sep :: r) = (reverse cur ++ a) :: splitOn sep [] r.
Proof.
  revert cur. induction a as [|x a IH]; intros cur Ha; simpl.
  - by rewrite N.eqb_refl, app_nil_r.
  - apply not_elem_of_cons in Ha as [Hx Ha].
    destruct (N.eqb_spec x sep) as [->|_]; [done|].
    rewrite IH by done. by rewrite reverse_cons, <- app_assoc.
Qed.

Lemma splitOn_last sep cur a :
  sep ∉ a → splitOn sep cur a = [reverse cur ++ a].
Proof.
  revert cur. induction a as [|x a IH]; intros cur Ha; simpl.
  - by rewrite app_nil_r.
  - apply not_elem_of_cons in Ha as [Hx Ha].
    destruct (N.eqb_spec x sep) as [->|_]; [done|].
    rewrite IH by done. by rewrite reverse_cons, <- app_assoc.
Qed.

(** The line feeds [CodeBlock] puts between the lines. *)
Lemma imap_join (f : jsstring → jsstring) (lines : list jsstring) (k n : nat) :
  n = (k + length lines)%nat →
  concat (imap (λ idx ln,
                  f ln ++ (if (Z.of_nat (k + idx) <? Z.of_nat n - 1)%Z
                           then [LF] else [])) lines)
  = joinWith LF (f <$> lines).
Proof.
  revert k. induction lines as [|ln lines IH]; intros k Hn; [done|].
  rewrite imap_cons, fmap_cons. cbn [concat].
  rewrite (imap_ext _ (λ idx ln0,
             f ln0 ++ (if (Z.of_nat (S k + idx) <? Z.of_nat n - 1)%Z
                       then [LF] else [])));
    [|intros i x _; simpl; by replace (k + S i)%nat with (S (k + i)) by lia].
  cbn [length] in Hn. rewrite IH by lia.
  destruct lines as [|ln' lines]; cbn [length] in Hn.
  - destruct (Z.ltb_spec (Z.of_nat (k + 0)) (Z.of_nat n - 1)); [lia|].
    simpl. by rewrite !app_nil_r.
  - destruct (Z.ltb_spec (Z.of_nat (k + 0)) (Z.of_nat n - 1)); [|lia].
    rewrite <- app_assoc. done.
Qed.
End SplitFacts.

(** * [CodeBlock] *)

(** X1. Every line [CodeBlock] hands to [tokenizePythonLine] is free of line
    feeds and carriage returns. *)
Theorem codeBlock_lines_clean (text : jsstring) :
  Forall (λ ln, (LF ∉ ln) ∧ (13 ∉ ln)) (codeBlockLines text).
Proof.
  apply Forall_forall. intros ln Hln. unfold codeBlockLines in Hln.
  rewrite splitLines_splitOn in Hln. split; intros Hc.
  - destruct (splitOn_units _ _ _ _ _ Hln Hc) as [_ Hne].
    by apply Hne; [apply not_elem_of_nil|].
  - destruct (splitOn_units _ _ _ _ _ Hln Hc) as [[Hin|Hin] _].
    + by apply elem_of_nil in Hin.
    + by apply list_elem_of_filter in Hin as [? _].
Qed.

(** X2. What [CodeBlock] shows is the text of the block without its carriage
    returns: the tokens of all lines and the line feeds between them
    reproduce it code unit for code unit. *)
Theorem codeBlock_lossless (text : jsstring) :
  codeBlockText text = filter (λ c, c ≠ 13) text.
Proof.
  unfold codeBlockText.
  rewrite (imap_join (λ ln, concat (spanText <$> tokenizePythonLine ln))
             (codeBlockLines text) 0 (length (codeBlockLines text))) by done.
  assert ((λ ln, concat (spanText <$> tokenizePythonLine ln)) <$> codeBlockLines text
          = codeBlockLines text) as ->.
  { rewrite <- (list_fmap_id (codeBlockLines text)) at 2.
    apply list_fmap_ext. intros i ln _. apply tokenizePythonLine_concat. }
  unfold codeBlockLines.
  rewrite splitLines_splitOn. apply (splitOn_join LF []).
Qed.

(** * More about the tokenizer *)

Section ScanFacts.
Implicit Types (s rest pre body line : jsstring) (c q : N) (i : Z).

Lemma scanComment_hash rest i a b e :
  (0 ≤ i)%Z → scanComment rest i a b e ≠ (-1)%Z →
  rest !! Z.to_nat (scanComment rest i a b e - i) = Some HASH.
Proof.
  revert i a b e. induction rest as [|ch rest IH]; intros i a b e Hi; simpl; [done|].
  assert (∀ a' b' e', scanComment rest (i + 1) a' b' e' ≠ (-1)%Z →
            (ch :: rest) !! Z.to_nat (scanComment rest (i + 1) a' b' e' - i) = Some HASH)
    as Hstep.
  { intros a' b' e' Hne.
    destruct (scanComment_range rest (i + 1) a' b' e') as [?|Hr]; [done|].
    replace (Z.to_nat (scanComment rest (i + 1) a' b' e' - i))
      with (S (Z.to_nat (scanComment rest (i + 1) a' b' e' - (i + 1)))) by lia.
    simpl. apply IH; [lia|done]. }
  repeat match goal with
         | |- context [if ?x then _ else _] => destruct x eqn:?
         end; try (apply Hstep).
  intros _. rewrite Z.sub_diag. simpl.
  repeat match goal with
         | H : _ && _ = true |- _ => apply andb_prop in H as [? H]
         end.
  f_equal. by apply N.eqb_eq.
Qed.

Lemma scanComment_shift rest i a b e :
  scanComment rest i a b e
  = if (scanComment rest 0 a b e =? -1)%Z then (-1)%Z
    else (i + scanComment rest 0 a b e)%Z.
Proof.
  revert i a b e. induction rest as [|ch rest IH]; intros i a b e; simpl; [done|].
  assert (∀ a' b' e',
            scanComment rest (i + 1) a' b' e'
            = if (scanComment rest 1 a' b' e' =? -1)%Z then (-1)%Z
              else (i + scanComment rest 1 a' b' e')%Z) as Hstep.
  { intros a' b' e'. rewrite (IH (i + 1)%Z), (IH 1%Z).
    destruct (scanComment_range rest 0 a' b' e') as [->|Hr]; [done|].
    destruct (Z.eqb_spec (scanComment rest 0 a' b' e') (-1)); [lia|].
    destruct (Z.eqb_spec (1 + scanComment rest 0 a' b' e') (-1)); [lia|]. lia. }
  repeat match goal with
         | |- context [if ?x then _ else _] => destruct x eqn:?
         end; try (apply Hstep); try done; try lia.
  all: change (0 + 1)%Z with 1%Z in *; rewrite Hstep;
    match goal with H : (_ =? -1)%Z = _ |- _ => by rewrite H end.
Qed.

Lemma scanComment_plain pre rest i :
  Forall plainUnit pre →
  scanComment (pre ++ rest) i false false false
  = scanComment rest (i + Z.of_nat (length pre)) false false false.
Proof.
  intros Hpre. revert i. induction Hpre as [|c pre (Hb & Hs & Hd & Hh) _ IH]; intros i.
  - simpl. f_equal. lia.
  - simpl. destruct (N.eqb_spec c BACKSLASH); [done|].
    destruct (N.eqb_spec c SQUOTE); [done|].
    destruct (N.eqb_spec c DQUOTE); [done|].
    destruct (N.eqb_spec c HASH); [done|]. simpl.
    rewrite IH. f_equal. lia.
Qed.

(** Inside a quoted string without backslashes nothing but the closing
    quote changes the state. *)
Lemma scanComment_quoted q body rest i :
  q = DQUOTE ∨ q = SQUOTE → q ∉ body → BACKSLASH ∉ body →
  scanComment (body ++ q :: rest) i (bool_decide (q = SQUOTE)) (bool_decide (q = DQUOTE)) false
  = scanComment rest (i + Z.of_nat (length body) + 1) false false false.
Proof.
  intros Hq Hbody Hbs. revert i.
  induction body as [|c body IH]; intros i.
  - destruct Hq as [-> | ->]; simpl; f_equal; lia.
  - apply not_elem_of_cons in Hbody as [Hc Hbody].
    apply not_elem_of_cons in Hbs as [Hcb Hbs].
    specialize (IH Hbody Hbs (i + 1)%Z).
    replace (i + Z.of_nat (length (c :: body)) + 1)%Z
      with (i + 1 + Z.of_nat (length body) + 1)%Z by (simpl; lia).
    rewrite <- IH. simpl.
    destruct (N.eqb_spec c BACKSLASH); [congruence|].
    destruct Hq as [-> | ->]; simpl.
    + destruct (N.eqb_spec c DQUOTE); [congruence|]. done.
    + destruct (N.eqb_spec c SQUOTE); [congruence|]. done.
Qed.

Lemma stringBody_closed q body rest :
  q ∉ body → BACKSLASH ∉ body →
  stringBody q (body ++ q :: rest) = Some (S (length body)).
Proof.
  intros Hq Hb. induction body as [|c body IH]; simpl.
  - by rewrite N.eqb_refl.
  - apply not_elem_of_cons in Hq as [Hc Hq]. apply not_elem_of_cons in Hb as [Hcb Hb].
    destruct (N.eqb_spec c q); [congruence|].
    destruct (N.eqb_spec c BACKSLASH); [congruence|].
    by rewrite IH.
Qed.

Lemma renderToken_kind t sp : renderToken t = Some sp → kind sp ≠ Comment.
Proof.
  unfold renderToken.
  repeat match goal with
         | |- context [if ?x then _ else _] => destruct x
         end; intros [= <-]; done.
Qed.
End ScanFacts.

(** X3. The comment token.  No token of the code part is a comment token.
    A line either has no comment, and its tokens are those of the code part,
    or it is its code part followed by a text that starts with the hash
    sign, and that text is the one token after those of the code part, of
    kind comment. *)
Theorem comment_token_last (line : jsstring) :
  Forall (λ o, ∀ sp, o = Some sp → kind sp ≠ Comment) (renderToken <$> tokens line)
  ∧ ((commentAt line = (-1)%Z ∧ codePart line = line
      ∧ tokenizePythonLine line = renderToken <$> tokens line)
     ∨ (∃ rest, line = codePart line ++ HASH :: rest
        ∧ tokenizePythonLine line
          = (renderToken <$> tokens line)
            ++ [Some {| kind := Comment; content := HASH :: rest |}])).
Proof.
  split.
  - apply Forall_fmap, Forall_forall. intros t _ sp Hsp. simpl in Hsp.
    by eapply renderToken_kind.
  - unfold tokenizePythonLine.
    destruct (Z.eqb_spec (commentAt line) (-1)) as [Hc|Hc].
    + left. unfold commentPart, codePart. rewrite Hc. done.
    + right. assert ((commentAt line =? -1)%Z = false) as Hc' by (by apply Z.eqb_neq).
      pose proof (codePart_commentPart line) as Hsplit.
      pose proof (scanComment_hash line 0 false false false) as Hh.
      fold (commentAt line) in Hh. specialize (Hh ltac:(lia) Hc).
      destruct (scanComment_range line 0 false false false) as [?|Hr]; [done|].
      fold (commentAt line) in Hr.
      assert (commentPart line = drop (Z.to_nat (commentAt line)) line) as Hcp.
      { unfold commentPart. rewrite Hc'.
        rewrite <- (Z2Nat.id (commentAt line)) at 1 by lia.
        apply sliceFrom_nat. lia. }
      rewrite Z.sub_0_r in Hh. rewrite (drop_S _ _ _ Hh) in Hcp.
      exists (drop (S (Z.to_nat (commentAt line))) line).
      rewrite <- Hcp. split; [done|].
      rewrite Hcp. done.
Qed.

(** X4. Where no quote, backslash or hash sign stands before it, the first
    hash sign opens the comment: the code part is what stands before it and
    the comment is the rest of the line. *)
Theorem comment_at_first_hash (pre rest : jsstring) :
  Forall plainUnit pre →
  commentAt (pre ++ HASH :: rest) = Z.of_nat (length pre)
  ∧ codePart (pre ++ HASH :: rest) = pre
  ∧ commentPart (pre ++ HASH :: rest) = HASH :: rest.
Proof.
  intros Hpre.
  assert (commentAt (pre ++ HASH :: rest) = Z.of_nat (length pre)) as Hc.
  { unfold commentAt. rewrite scanComment_plain by done. simpl. lia. }
  split; [done|]. unfold codePart, commentPart. rewrite Hc.
  destruct (Z.eqb_spec (Z.of_nat (length pre)) (-1)); [lia|].
  rewrite (slice_nat _ 0 (length pre)) by (rewrite length_app; lia).
  rewrite sliceFrom_nat by (rewrite length_app; lia).
  rewrite drop_0, Nat.sub_0_r, take_app_length, drop_app_length. done.
Qed.

Lemma comment_at_first_hash_witness :
  Forall plainUnit (lit "x = 1 ")
  ∧ commentAt (lit "x = 1 " ++ HASH :: lit " uno") = 6%Z
  ∧ codePart (lit "x = 1 " ++ HASH :: lit " uno") = lit "x = 1 "
  ∧ commentPart (lit "x = 1 " ++ HASH :: lit " uno") = HASH :: lit " uno".
Proof.
  assert (Forall plainUnit (lit "x = 1 ")) as Hp
    by (repeat constructor; discriminate).
  split; [exact Hp|].
  exact (comment_at_first_hash (lit "x = 1 ") (lit " uno") Hp).
Defined.

(** X5. A hash sign inside a closed quoted string opens no comment.  Where a
    string in double or single quotes, without backslash, follows a text
    without quote, backslash or hash sign, the search for the comment goes on
    behind the closing quote, whatever the string contains: the line has a
    comment exactly when the text behind the string has one, at that
    place. *)
Theorem comment_skips_string (pre body rest : jsstring) (q : N) :
  Forall plainUnit pre → q = DQUOTE ∨ q = SQUOTE → q ∉ body → BACKSLASH ∉ body →
  commentAt (pre ++ [q] ++ body ++ [q] ++ rest)
  = if (commentAt rest =? -1)%Z then (-1)%Z
    else (Z.of_nat (length pre + length body + 2) + commentAt rest)%Z.
Proof.
  intros Hpre Hq Hbody Hbs. unfold commentAt.
  rewrite scanComment_plain by done.
  assert (scanComment ([q] ++ body ++ [q] ++ rest) (0 + Z.of_nat (length pre))
            false false false
          = scanComment (body ++ q :: rest) (0 + Z.of_nat (length pre) + 1)
              (bool_decide (q = SQUOTE)) (bool_decide (q = DQUOTE)) false) as ->.
  { destruct Hq as [-> | ->]; reflexivity. }
  rewrite scanComment_quoted by done.
  rewrite scanComment_shift.
  destruct (scanComment rest 0 false false false =? -1)%Z; [done|]. lia.
Qed.

Lemma comment_skips_string_witness :
  Forall plainUnit (lit "print(")
  ∧ (DQUOTE = DQUOTE ∨ DQUOTE = SQUOTE)
  ∧ (DQUOTE ∉ lit "a # b") ∧ (BACKSLASH ∉ lit "a # b")
  ∧ commentAt (lit "print(" ++ [DQUOTE] ++ lit "a # b" ++ [DQUOTE] ++ lit ") # fin")
    = 15%Z.
Proof.
  assert (Forall plainUnit (lit "print(")) as Hp
    by (repeat constructor; discriminate).
  assert (DQUOTE ∉ lit "a # b") as Hq by compute_done.
  assert (BACKSLASH ∉ lit "a # b") as Hb by compute_done.
  split; [exact Hp|]. split; [by left|]. split; [exact Hq|]. split; [exact Hb|].
  rewrite (comment_skips_string (lit "print(") (lit "a # b") (lit ") # fin") DQUOTE
             Hp (or_introl eq_refl) Hq Hb).
  reflexivity.
Defined.

Section ClosedStringFacts.
Implicit Types (s body rest : jsstring) (q : N) (i : nat).

Lemma matchAllFrom_closed_string s body rest i q :
  q = DQUOTE ∨ q = SQUOTE → q ∉ body → BACKSLASH ∉ body →
  drop i s = [q] ++ body ++ [q] ++ rest →
  matchAllFrom s i
  = {| index := i; m0 := [q] ++ body ++ [q] |}
    :: matchAllFrom s (i + length ([q] ++ body ++ [q])).
Proof.
  intros Hq Hbody Hbs Hdrop.
  assert (s !! i = Some q) as Hi.
  { rewrite <- (Nat.add_0_r i), <- lookup_drop, Hdrop. done. }
  assert (drop (S i) s = body ++ q :: rest) as Hdrop'.
  { rewrite (drop_S _ _ _ Hi) in Hdrop. by injection Hdrop. }
  assert (execToken s i = Some (S (S (length body)))) as Hexec.
  { unfold execToken, altString. rewrite Hi, Hdrop'.
    destruct Hq as [-> | ->]; simpl N.eqb; cbv iota;
      rewrite stringBody_closed by done; reflexivity. }
  assert (length ([q] ++ body ++ [q]) = S (S (length body))) as Hlen
    by (rewrite !length_app; simpl; lia).
  rewrite Hlen.
  remember (matchAllFrom s (i + S (S (length body)))) as tl eqn:Htl.
  simp matchAllFrom.
  destruct (decide (i ≤ length s)%nat) as [Hle|Hgt];
    [|apply lookup_lt_Some in Hi; lia].
  simpl. rewrite Hexec. cbn [matchAllFrom_unfold_clause_1_clause_2].
  rewrite <- Htl. f_equal. f_equal. unfold substring.
  replace (i + S (S (length body)) - i)%nat with (length ([q] ++ body ++ [q])) by lia.
  rewrite Hdrop. replace ([q] ++ body ++ [q] ++ rest) with (([q] ++ body ++ [q]) ++ rest)
    by (by rewrite <- !app_assoc).
  apply take_app_length.
Qed.
End ClosedStringFacts.

(** X6. A closed string is one token.  Where a quote of the code part is
    closed by the same quote, with neither that quote nor a backslash in
    between, the token that starts at the opening quote runs to the closing
    quote and is a string literal, whatever else stands between the quotes,
    and the tokens behind it show the rest of the line.  A token starts at
    the opening quote when no quote stands before it in the code part, and
    when only text without quotes stands between it and a place where a
    token starts. *)
Theorem closed_string_token (line pre body rest : jsstring) (q : N) :
  q = DQUOTE ∨ q = SQUOTE → q ∉ body → BACKSLASH ∉ body →
  codePart line = pre ++ [q] ++ body ++ [q] ++ rest →
  (DQUOTE ∉ pre → SQUOTE ∉ pre →
   tokenAfter line pre {| kind := StringLiteral; content := [q] ++ body ++ [q] |}
     (rest ++ commentPart line))
  ∧ (∀ before mid,
       pre = before ++ mid → tokenStart line before →
       DQUOTE ∉ mid → SQUOTE ∉ mid →
       tokenAfter line pre {| kind := StringLiteral; content := [q] ++ body ++ [q] |}
         (rest ++ commentPart line)).
Proof.
  intros Hq Hbody Hbs Hcode.
  apply (entry_behind line pre ([q] ++ body ++ [q]) rest).
  - by rewrite Hcode, <- !app_assoc.
  - apply (matchAllFrom_closed_string _ body rest); try done.
    by rewrite Hcode, drop_app_length.
  - rewrite renderToken_classify by done. unfold classifyBySpec.
    destruct Hq as [-> | ->]; reflexivity.
  - by destruct Hq as [-> | ->].
  - by destruct Hq as [-> | ->].
  - left. by destruct Hq as [-> | ->].
Qed.

Lemma closed_string_token_witness :
  (DQUOTE = DQUOTE ∨ DQUOTE = SQUOTE)
  ∧ (DQUOTE ∉ lit "it's # 1") ∧ (BACKSLASH ∉ lit "it's # 1")
  ∧ codePart (lit "x = " ++ [DQUOTE] ++ lit "it's # 1" ++ [DQUOTE] ++ lit " + y")
    = lit "x = " ++ [DQUOTE] ++ lit "it's # 1" ++ [DQUOTE] ++ lit " + y"
  ∧ (DQUOTE ∉ lit "x = ") ∧ (SQUOTE ∉ lit "x = ")
  ∧ tokenAfter (lit "x = " ++ [DQUOTE] ++ lit "it's # 1" ++ [DQUOTE] ++ lit " + y")
      (lit "x = ")
      {| kind := StringLiteral; content := [DQUOTE] ++ lit "it's # 1" ++ [DQUOTE] |}
      (lit " + y").
Proof.
  assert (DQUOTE ∉ lit "it's # 1") as Hq by compute_done.
  assert (BACKSLASH ∉ lit "it's # 1") as Hb by compute_done.
  assert (DQUOTE ∉ lit "x = ") as Hd by compute_done.
  assert (SQUOTE ∉ lit "x = ") as Hs by compute_done.
  split; [by left|]. split; [exact Hq|]. split; [exact Hb|]. split; [reflexivity|].
  split; [exact Hd|]. split; [exact Hs|].
  destruct (closed_string_token
              (lit "x = " ++ [DQUOTE] ++ lit "it's # 1" ++ [DQUOTE] ++ lit " + y")
              (lit "x = ") (lit "it's # 1") (lit " + y") DQUOTE
              (or_introl eq_refl) Hq Hb eq_refl) as [Hfirst _].
  exact (Hfirst Hd Hs).
Defined.

Section IdentFacts.
Implicit Types (s w rest : jsstring) (c : N) (i : nat).

Lemma run_exact (cls : N → bool) (a rest : jsstring) :
  Forall (λ x, cls x = true) a → from_option cls false (head rest) = false →
  run cls (a ++ rest) = length a.
Proof.
  intros Ha Hr. induction Ha as [|x a Hx _ IH]; simpl.
  - destruct rest as [|d rest]; [done|]. simpl in *. by rewrite Hr.
  - by rewrite Hx, IH.
Qed.

Lemma identStart_class c :
  isIdentStart c = true →
  isWordChar c = true ∧ isWhiteSpace c = false ∧ isDigit c = false
  ∧ (c =? DQUOTE) = false ∧ (c =? SQUOTE) = false.
Proof.
  unfold isWordChar, isIdentStart, isWhiteSpace, isDigit, between, DQUOTE, SQUOTE.
  intros Hc. rewrite Hc. split; [done|].
  rewrite !orb_true_iff, !andb_true_iff, !N.leb_le, N.eqb_eq in Hc.
  repeat split; apply not_true_is_false; intros Hf;
    rewrite ?orb_true_iff, ?andb_true_iff, ?N.leb_le, ?N.eqb_eq in Hf; lia.
Qed.

Lemma identStart_not_dot c : isIdentStart c = true → (c =? DOT) = false.
Proof.
  unfold isIdentStart, between, DOT. intros Hc.
  rewrite !orb_true_iff, !andb_true_iff, !N.leb_le, N.eqb_eq in Hc.
  apply N.eqb_neq. lia.
Qed.

Lemma matchAllFrom_identifier s w rest c i :
  boundaryAt s i = true →
  drop i s = c :: w ++ rest →
  isIdentStart c = true → Forall (λ x, isWordChar x = true) w →
  from_option isWordChar false (head rest) = false →
  matchAllFrom s i
  = {| index := i; m0 := c :: w |} :: matchAllFrom s (i + length (c :: w)).
Proof.
  intros Hb Hdrop Hc Hw Hrest.
  destruct (identStart_class c Hc) as (Hword & Hws & Hdig & Hdq & Hsq).
  assert (∀ k, s !! (i + k)%nat = (c :: w ++ rest) !! k) as Hlook
    by (intros k; by rewrite <- lookup_drop, Hdrop).
  assert (s !! i = Some c) as Hi by (by rewrite <- (Nat.add_0_r i), Hlook).
  assert (drop (S i) s = w ++ rest) as Hdrop'.
  { rewrite (drop_S _ _ _ Hi) in Hdrop. by injection Hdrop. }
  assert (boundaryAt s (i + 1 + (0 + length w)) = true) as Hend.
  { replace (i + 1 + (0 + length w))%nat with (S (i + length w)) by lia.
    unfold boundaryAt. rewrite Hlook.
    assert (∃ x, (c :: w ++ rest) !! length w = Some x ∧ isWordChar x = true)
      as (x & -> & Hx).
    { destruct (lookup_lt_is_Some_2 (c :: w) (length w)) as [x Hx]; [simpl; lia|].
      exists x. split.
      - change (c :: w ++ rest) with ((c :: w) ++ rest). by rewrite lookup_app_l by (simpl; lia).
      - apply list_elem_of_lookup_2 in Hx. apply elem_of_cons in Hx as [->|Hx]; [done|].
        rewrite Forall_forall in Hw. by apply Hw. }
    replace (S (i + length w)) with (i + S (length w))%nat by lia. rewrite Hlook.
    change ((c :: w ++ rest) !! S (length w)) with ((w ++ rest) !! length w).
    rewrite lookup_app_r by lia. rewrite Nat.sub_diag.
    cbn [from_option]. rewrite Hx.
    destruct rest as [|d rest]; simpl in *; [done|]. by rewrite Hrest. }
  assert (execToken s i = Some (S (length w))) as Hexec.
  { unfold execToken, altString, altIdent. rewrite Hi, Hdq, Hsq, Hb, Hc, Hdrop'.
    rewrite run_exact by done. cbn [orElse].
    by rewrite (backtrack_first _ 0 (length w) (1 + (0 + length w))%nat)
      by (by rewrite Hend). }
  cbn [length].
  remember (matchAllFrom s (i + S (length w))) as tl eqn:Htl.
  simp matchAllFrom.
  destruct (decide (i ≤ length s)%nat) as [Hle|Hgt];
    [|apply lookup_lt_Some in Hi; lia].
  simpl. rewrite Hexec. cbn [matchAllFrom_unfold_clause_1_clause_2].
  rewrite <- Htl. f_equal. f_equal. unfold substring.
  replace (i + S (length w) - i)%nat with (length (c :: w)) by (simpl; lia).
  rewrite Hdrop. change (c :: w ++ rest) with ((c :: w) ++ rest).
  apply take_app_length.
Qed.

Lemma boundaryAt_start pre c post :
  isWordChar c = true → from_option isWordChar false (last pre) = false →
  boundaryAt (pre ++ c :: post) (length pre) = true.
Proof.
  intros Hc Hlast. unfold boundaryAt.
  rewrite (list_lookup_middle pre post c (length pre) eq_refl). simpl. rewrite Hc.
  destruct (length pre) as [|k] eqn:Hk; [done|].
  rewrite last_lookup, Hk in Hlast. simpl in Hlast.
  rewrite lookup_app_l by lia. by rewrite Hlast.
Qed.
End IdentFacts.

(** X7. An identifier is one token.  Where a letter or underscore of the
    code part has no word character before it and only letters, digits and
    underscores follow up to a code unit of another kind or the end of the
    code part, the token that starts at it is the whole identifier, and it is
    rendered as a keyword or a builtin exactly when it is, as a whole, a
    member of the respective set; so a keyword that is part of a longer name
    is not highlighted.  A token starts at
    the identifier when no quote stands before it in the code part, and when
    only text without quotes stands between it and a place where a token
    starts. *)
Theorem identifier_token (line pre w rest : jsstring) (c : N) :
  codePart line = pre ++ c :: w ++ rest →
  isIdentStart c = true → Forall (λ x, isWordChar x = true) w →
  from_option isWordChar false (head rest) = false →
  from_option isWordChar false (last pre) = false →
  (DQUOTE ∉ pre → SQUOTE ∉ pre →
   tokenAfter line pre
     {| kind := if bool_decide (c :: w ∈ PY_KEYWORDS) then Keyword
                else if bool_decide (c :: w ∈ PY_BUILTINS) then Builtin
                else Plain;
        content := c :: w |}
     (rest ++ commentPart line))
  ∧ (∀ before mid,
       pre = before ++ mid → tokenStart line before →
       DQUOTE ∉ mid → SQUOTE ∉ mid →
       tokenAfter line pre
         {| kind := if bool_decide (c :: w ∈ PY_KEYWORDS) then Keyword
                    else if bool_decide (c :: w ∈ PY_BUILTINS) then Builtin
                    else Plain;
            content := c :: w |}
         (rest ++ commentPart line)).
Proof.
  intros Hcode Hc Hw Hrest Hlast.
  destruct (identStart_class c Hc) as (Hword & Hws & Hdig & Hdq & Hsq).
  apply (entry_behind line pre (c :: w) rest).
  - by rewrite Hcode.
  - apply (matchAllFrom_identifier _ w rest); try done.
    + rewrite Hcode. by apply boundaryAt_start.
    + by rewrite Hcode, drop_app_length.
  - rewrite renderToken_classify by done. unfold classifyBySpec.
    cbn [forallb head from_option]. by rewrite Hws, Hdq, Hsq, Hdig.
  - done.
  - simpl. by rewrite Hdig, identStart_not_dot.
  - by right.
Qed.

Lemma identifier_token_witness :
  codePart (lit "x = iffy + 1") = lit "x = " ++ 105 :: lit "ffy" ++ lit " + 1"
  ∧ isIdentStart 105 = true
  ∧ Forall (λ x, isWordChar x = true) (lit "ffy")
  ∧ from_option isWordChar false (head (lit " + 1")) = false
  ∧ from_option isWordChar false (last (lit "x = ")) = false
  ∧ (DQUOTE ∉ lit "x = ") ∧ (SQUOTE ∉ lit "x = ")
  ∧ tokenAfter (lit "x = iffy + 1") (lit "x = ")
      {| kind := Plain; content := lit "iffy" |} (lit " + 1")
  ∧ codePart (lit "x = 'if' if y") = (lit "x = 'if'" ++ lit " ") ++ 105 :: lit "f" ++ lit " y"
  ∧ Forall (λ x, isWordChar x = true) (lit "f")
  ∧ from_option isWordChar false (head (lit " y")) = false
  ∧ from_option isWordChar false (last (lit "x = 'if'" ++ lit " ")) = false
  ∧ tokenStart (lit "x = 'if' if y") (lit "x = 'if'")
  ∧ (DQUOTE ∉ lit " ") ∧ (SQUOTE ∉ lit " ")
  ∧ tokenAfter (lit "x = 'if' if y") (lit "x = 'if'" ++ lit " ")
      {| kind := Keyword; content := lit "if" |} (lit " y").
Proof.
  assert (Forall (λ x, isWordChar x = true) (lit "ffy")) as Hw by (repeat constructor).
  assert (Forall (λ x, isWordChar x = true) (lit "f")) as Hw' by (repeat constructor).
  assert (DQUOTE ∉ lit "x = ") as Hd by compute_done.
  assert (SQUOTE ∉ lit "x = ") as Hs by compute_done.
  assert (DQUOTE ∉ lit " ") as Hd' by compute_done.
  assert (SQUOTE ∉ lit " ") as Hs' by compute_done.
  assert (tokenStart (lit "x = 'if' if y") (lit "x = 'if'")) as Hst.
  { exists (take 5 (tokenizePythonLine (lit "x = 'if' if y"))),
      (drop 5 (tokenizePythonLine (lit "x = 'if' if y"))).
    split; [by rewrite take_drop|reflexivity]. }
  split; [reflexivity|]. split; [reflexivity|]. split; [exact Hw|].
  split; [reflexivity|]. split; [reflexivity|].
  split; [exact Hd|]. split; [exact Hs|].
  destruct (identifier_token (lit "x = iffy + 1") (lit "x = ") (lit "ffy") (lit " + 1") 105
              eq_refl eq_refl Hw eq_refl eq_refl) as [Hfirst _].
  split; [exact (Hfirst Hd Hs)|].
  split; [reflexivity|]. split; [exact Hw'|]. split; [reflexivity|].
  split; [reflexivity|]. split; [exact Hst|]. split; [exact Hd'|]. split; [exact Hs'|].
  destruct (identifier_token (lit "x = 'if' if y") (lit "x = 'if'" ++ lit " ") (lit "f")
              (lit " y") 105 eq_refl eq_refl Hw' eq_refl eq_refl) as [_ Hnext].
  exact (Hnext (lit "x = 'if'") (lit " ") eq_refl Hst Hd' Hs').
Defined.

(** * More about the inline renderer *)

Section SpanFacts.
Implicit Types (s t : jsstring) (p q k : nat).

Lemma run_take (cls : N → bool) s k :
  (k ≤ run cls s)%nat → Forall (λ x, cls x = true) (take k s) ∧ length (take k s) = k.
Proof.
  revert k. induction s as [|c s IH]; intros k; simpl.
  - intros Hk. replace k with 0%nat by lia. by split.
  - destruct (cls c) eqn:Hc.
    + destruct k as [|k]; [by split|]. intros Hk.
      destruct (IH k) as [Hall Hlen]; [lia|]. simpl. split; [by constructor|by rewrite Hlen].
    + intros Hk. replace k with 0%nat by lia. by split.
Qed.

Lemma execSpan_capture s q k :
  execSpan s q = Some k →
  substring s (q + 1) (q + 1 + k) ≠ [] ∧ (BACKTICK ∉ substring s (q + 1) (q + 1 + k)).
Proof.
  unfold execSpan. destruct (s !! q) as [c|]; [|done].
  destruct (c =? BACKTICK); [|done].
  destruct (run _ (drop (S q) s)) as [|m] eqn:Hrun; [done|].
  intros (j & Hj & Hk)%backtrack_some.
  destruct (drop (S q) s !! j) as [d|]; [|done].
  destruct (d =? BACKTICK); [|done]. injection Hk as <-.
  unfold substring. replace (q + 1 + j - (q + 1))%nat with j by lia.
  replace (q + 1)%nat with (S q) by lia.
  destruct (run_take (λ x, negb (x =? BACKTICK)) (drop (S q) s) j) as [Hall Hlen]; [lia|].
  split.
  - intros Hnil. rewrite Hnil in Hlen. simpl in Hlen. lia.
  - intros Hin. rewrite Forall_forall in Hall. specialize (Hall _ Hin).
    by rewrite N.eqb_refl in Hall.
Qed.

Lemma splitLoop_captures s p q c :
  (p ≤ q)%nat → CodeSeg c ∈ tagged false (splitLoop s p q) →
  c ≠ [] ∧ (BACKTICK ∉ c).
Proof.
  intros Hpq. revert p q Hpq c.
  apply (splitLoop_ind
           (λ p q parts, ∀ c, CodeSeg c ∈ tagged false parts → c ≠ [] ∧ (BACKTICK ∉ c))).
  - intros p q _ _ c Hin. simpl in Hin.
    apply list_elem_of_singleton in Hin. discriminate Hin.
  - done.
  - intros p q k _ Hk _ IH c Hin. cbn [tagged negb] in Hin.
    apply elem_of_cons in Hin as [Hin|Hin]; [discriminate Hin|].
    apply elem_of_cons in Hin as [Hin|Hin]; [|by apply IH].
    injection Hin as ->. by apply execSpan_capture.
Qed.
End SpanFacts.

(** X8. Every inline-code segment is non-empty and holds no backtick. *)
Theorem code_segments_clean (text c : jsstring) :
  CodeSeg c ∈ RichText text → c ≠ [] ∧ (BACKTICK ∉ c).
Proof.
  rewrite RichText_tagged. unfold split. apply splitLoop_captures. lia.
Qed.

Lemma code_segments_clean_witness :
  CodeSeg (lit "F5") ∈ RichText (lit "pulsa `F5` y ``")
  ∧ lit "F5" ≠ [] ∧ (BACKTICK ∉ lit "F5").
Proof.
  assert (CodeSeg (lit "F5") ∈ RichText (lit "pulsa `F5` y ``")) as Hin.
  { assert (RichText (lit "pulsa `F5` y ``")
            = [TextSeg (lit "pulsa "); CodeSeg (lit "F5"); TextSeg (lit " y ``")]) as ->
      by (vm_compute; reflexivity).
    apply elem_of_cons. right. apply elem_of_cons. by left. }
  split; [exact Hin|].
  exact (code_segments_clean (lit "pulsa `F5` y ``") (lit "F5") Hin).
Defined.

(** X9. A text without backtick is rendered as one plain segment, the text
    itself; this holds for the empty text too. *)
Theorem plain_text_one_segment (text : jsstring) :
  BACKTICK ∉ text → RichText text = [TextSeg text].
Proof.
  intros Hbt. rewrite RichText_tagged. unfold split.
  rewrite splitLoop_none; [|intros q|lia].
  - unfold substring. by rewrite drop_0, Nat.sub_0_r, take_ge.
  - apply execSpan_not_backtick. intros Hq.
    apply Hbt. by eapply list_elem_of_lookup_2.
Qed.

Lemma plain_text_one_segment_witness :
  (BACKTICK ∉ lit "Hola") ∧ RichText (lit "Hola") = [TextSeg (lit "Hola")].
Proof.
  assert (BACKTICK ∉ lit "Hola") as Hbt by compute_done.
  split; [exact Hbt|]. exact (plain_text_one_segment (lit "Hola") Hbt).
Defined.

(** * More about [normalize] *)

(** X10. Whatever the host's lower-casing and decomposition do, the result of
    [normalize] holds no code unit from U+0300 to U+036F. *)
Theorem normalize_no_marks `{UnicodeOps} (str : jsstring) :
  Forall (λ c, c < 768 ∨ 879 < c) (normalize str).
Proof.
  unfold normalize. generalize (normalizeNFD (toLowerCase str)) as s.
  induction s as [|c s IH]; simpl; [constructor|].
  destruct (N.ltb_spec c 768); simpl.
  - constructor; [by left|done].
  - destruct (N.ltb_spec 879 c); [|done]. constructor; [by right|done].
Qed.

(** * More about the sections fold *)

Section FoldFacts.
Context `{UnicodeOps}.
Implicit Types (bs rest : list TopicBlock) (secs : list SectionObj).

Lemma snocBlock_app (front secs : list SectionObj) (b : TopicBlock) :
  secs ≠ [] → snocBlock (front ++ secs) b = front ++ snocBlock secs b.
Proof.
  intros Hne. unfold snocBlock, appendToCurrent.
  destruct (isTopLevel b); [by rewrite app_assoc|].
  destruct (snoc_cases secs) as [->|(init & last & ->)]; [done|].
  destruct (init ++ [last]) eqn:E; [by destruct init|]. rewrite <- E.
  rewrite alter_last.
  destruct (front ++ init ++ [last]) eqn:E2; [by destruct front, init|]. rewrite <- E2.
  rewrite (app_assoc front init [last]), alter_last. by rewrite <- app_assoc.
Qed.

Lemma forEach_omit (obs : list (option TopicBlock)) (st : Store) :
  forEach obs st = forEach (Some <$> omap id obs) st.
Proof.
  unfold forEach. revert st. induction obs as [|[b|] obs IH]; intros st; simpl; auto.
Qed.
End FoldFacts.

(** X11. Entries of the block array that are not objects are passed over: the
    sections are those of the array without them. *)
Theorem sectionize_skips_null `{UnicodeOps} (obs : list (option TopicBlock)) :
  sectionize obs = sectionize (Some <$> omap id obs).
Proof. unfold sectionize. by rewrite forEach_omit. Qed.

(** X12. A top-level heading starts afresh.  The sections of a block
    sequence are the sections of what stands before a top-level heading
    followed by the sections of the sequence from that heading on. *)
Theorem sectionize_at_heading `{UnicodeOps}
    (bs rest : list TopicBlock) (h : TopicBlock) :
  isTopLevel h = true →
  sectionize (Some <$> (bs ++ h :: rest))
  = sectionize (Some <$> bs) ++ sectionize (Some <$> (h :: rest)).
Proof.
  intros Hh. induction rest as [|b rest IH] using rev_ind.
  - rewrite sectionize_snoc. change [h] with ([] ++ [h]).
    rewrite (sectionize_snoc [] h). unfold snocBlock. rewrite Hh. done.
  - replace (bs ++ h :: rest ++ [b]) with ((bs ++ h :: rest) ++ [b])
      by (by rewrite <- app_assoc).
    replace (h :: rest ++ [b]) with ((h :: rest) ++ [b]) by done.
    rewrite !sectionize_snoc, IH. apply snocBlock_app.
    intros Hnil. by apply sectionize_nil in Hnil.
Qed.

Lemma sectionize_at_heading_witness :
  isTopLevel (BlockH (lit "Tema 2")) = true
  ∧ sectionize (Some <$> ([BlockP (lit "a")] ++ BlockH (lit "Tema 2") :: [BlockP (lit "b")]))
    = sectionize (Some <$> [BlockP (lit "a")])
      ++ sectionize (Some <$> (BlockH (lit "Tema 2") :: [BlockP (lit "b")])).
Proof.
  split; [reflexivity|].
  apply (sectionize_at_heading [BlockP (lit "a")] [BlockP (lit "b")] (BlockH (lit "Tema 2"))).
  reflexivity.
Defined.

(** * The course catalogue *)

Section CatalogueFacts.
Context `{UnicodeOps}.
Implicit Types (s q a r : jsstring) (c : Course) (cs : list Course).

Lemma includes_prefix q r : includes (q ++ r) q = true.
Proof.
  assert (startsWith (q ++ r) q = true) as Hs by (apply startsWith_prefix; eauto).
  destruct (q ++ r); simpl in *; by rewrite Hs.
Qed.

Lemma includes_app a s q : includes s q = true → includes (a ++ s) q = true.
Proof.
  intros Hs. induction a as [|x a IH]; [done|].
  simpl. rewrite IH. apply orb_true_r.
Qed.

Lemma trim_infix s : ∃ a r, s = a ++ trim s ++ r.
Proof.
  destruct (trimStart_split s) as (a & Ha & _).
  destruct (trimEnd_prefix (trimStart s)) as [r Hr].
  exists a, r. rewrite Ha at 1. by rewrite Hr at 1.
Qed.

Lemma keepCourse_cycle q (wanted : Cycle) c :
  keepCourse q (CycleOf wanted) c
  = bool_decide (wanted ∈ getCycles c) && keepCourse q CycleAll c.
Proof. unfold keepCourse. by destruct (bool_decide _). Qed.

Lemma includes_trim s : includes s (trim s) = true.
Proof.
  destruct (trim_infix s) as (a & r & Hs). rewrite Hs at 1.
  apply includes_app, includes_prefix.
Qed.
End CatalogueFacts.

(** X13. With the cycle all and a query whose normal form is blank, the
    filter keeps every course, in order. *)
Theorem filterCourses_blank `{UnicodeOps} (courses : list Course) (query : jsstring) :
  trim (normalize query) = [] → filterCourses courses query CycleAll = courses.
Proof.
  intros Hq. unfold filterCourses. rewrite Hq.
  induction courses as [|c cs IH]; [done|].
  rewrite filter_cons, decide_True by done. by rewrite IH.
Qed.

Lemma filterCourses_blank_witness :
  trim (normalize (lit "  ")) = []
  ∧ filterCourses
      [plainCourse (lit "prog") (lit "Programacion") (Some [DAM; DAW]) None]
      (lit "  ") CycleAll
    = [plainCourse (lit "prog") (lit "Programacion") (Some [DAM; DAW]) None].
Proof.
  split; [reflexivity|]. apply filterCourses_blank. reflexivity.
Defined.

(** X14. Searching for the title of a course finds the course: with its
    own title as the query, a course of the list is kept under the cycle all
    and under each of its cycles. *)
Theorem filterCourses_finds_title `{UnicodeOps}
    (courses : list Course) (c : Course) (cy : CycleId) :
  c ∈ courses →
  (cy = CycleAll ∨ ∃ wanted, cy = CycleOf wanted ∧ wanted ∈ getCycles c) →
  c ∈ filterCourses courses (courseTitle c) cy.
Proof.
  intros Hc Hcy. unfold filterCourses. apply list_elem_of_filter. split; [|done].
  assert ((if (length (trim (normalize (courseTitle c))) =? 0)%nat then true
           else includes (normalize (courseTitle c)) (trim (normalize (courseTitle c))))
          = true) as Hq.
  { destruct (length _ =? 0)%nat; [done|apply includes_trim]. }
  unfold keepCourse. destruct Hcy as [->|(wanted & -> & Hw)]; [done|].
  by rewrite bool_decide_eq_true_2.
Qed.

Lemma filterCourses_finds_title_witness :
  plainCourse (lit "dam-bbdd") (lit "Bases de datos") None (Some DAM)
    ∈ [plainCourse (lit "dam-bbdd") (lit "Bases de datos") None (Some DAM)]
  ∧ (CycleOf DAM = CycleAll
     ∨ ∃ wanted, CycleOf DAM = CycleOf wanted
                 ∧ wanted ∈ getCycles
                     (plainCourse (lit "dam-bbdd") (lit "Bases de datos") None (Some DAM)))
  ∧ plainCourse (lit "dam-bbdd") (lit "Bases de datos") None (Some DAM)
    ∈ filterCourses
        [plainCourse (lit "dam-bbdd") (lit "Bases de datos") None (Some DAM)]
        (lit "Bases de datos") (CycleOf DAM).
Proof.
  set (c := plainCourse (lit "dam-bbdd") (lit "Bases de datos") None (Some DAM)).
  assert (c ∈ [c]) as Hc by (apply elem_of_cons; by left).
  assert (CycleOf DAM = CycleAll ∨ ∃ wanted, CycleOf DAM = CycleOf wanted ∧ wanted ∈ getCycles c)
    as Hcy by (right; exists DAM; split; [done|compute_done]).
  split; [exact Hc|]. split; [exact Hcy|].
  exact (filterCourses_finds_title [c] c (CycleOf DAM) Hc Hcy).
Defined.

(** X15. The two criteria of the filter work one after the other: the
    courses kept for a cycle are the courses kept for the cycle all that list
    that cycle, in the same order. *)
Theorem filterCourses_by_cycle `{UnicodeOps}
    (courses : list Course) (query : jsstring) (wanted : Cycle) :
  filterCourses courses query (CycleOf wanted)
  = filter (λ c, wanted ∈ getCycles c) (filterCourses courses query CycleAll).
Proof.
  unfold filterCourses. generalize (trim (normalize query)) as q. intros q.
  induction courses as [|c cs IH]; [done|].
  rewrite (filter_cons _ c cs), (filter_cons (λ c0, keepCourse q CycleAll c0 = true) c cs).
  rewrite IH, keepCourse_cycle.
  destruct (keepCourse q CycleAll c) eqn:Hk.
  - rewrite (decide_True (P := true = true)) by done. rewrite filter_cons.
    destruct (decide (wanted ∈ getCycles c)) as [Hw|Hw].
    + rewrite bool_decide_eq_true_2 by done. by rewrite decide_True.
    + rewrite bool_decide_eq_false_2 by done. by rewrite decide_False.
  - rewrite (decide_False (P := false = true)) by done.
    rewrite andb_false_r. by rewrite decide_False.
Qed.

(** X16. A course that names no cycle, neither in a non-empty [cycles] array
    nor in [cycle], is listed under no cycle but all. *)
Theorem filterCourses_no_cycle `{UnicodeOps}
    (courses : list Course) (query : jsstring) (wanted : Cycle) (c : Course) :
  cycles c = None ∨ cycles c = Some [] → cycle c = None →
  c ∉ filterCourses courses query (CycleOf wanted).
Proof.
  intros Hcs Hcy Hin. unfold filterCourses in Hin.
  apply list_elem_of_filter in Hin as [Hkeep _].
  unfold keepCourse, getCycles in Hkeep.
  destruct Hcs as [Hcs|Hcs]; rewrite Hcs, Hcy in Hkeep;
    rewrite bool_decide_eq_false_2 in Hkeep by apply not_elem_of_nil; done.
Qed.

Lemma filterCourses_no_cycle_witness :
  (cycles (plainCourse (lit "x") (lit "Redes") (Some []) None) = None
   ∨ cycles (plainCourse (lit "x") (lit "Redes") (Some []) None) = Some [])
  ∧ cycle (plainCourse (lit "x") (lit "Redes") (Some []) None) = None
  ∧ (plainCourse (lit "x") (lit "Redes") (Some []) None
     ∉ filterCourses [plainCourse (lit "x") (lit "Redes") (Some []) None]
         (lit "redes") (CycleOf SMR)).
Proof.
  split; [by right|]. split; [reflexivity|].
  exact (filterCourses_no_cycle
           [plainCourse (lit "x") (lit "Redes") (Some []) None] (lit "redes") SMR
           (plainCourse (lit "x") (lit "Redes") (Some []) None)
           (or_intror eq_refl) eq_refl).
Defined.

(** * [hashStr] *)

Section WordFacts.
Local Open Scope Z_scope.
Implicit Types (a b h z : Z).

Lemma toInt32_mod z : toInt32 z mod 2 ^ 32 = z mod 2 ^ 32.
Proof.
  unfold toInt32. rewrite Zminus_mod_idemp_l. f_equal. lia.
Qed.

Lemma lxor_mod a b : Z.lxor a b mod 2 ^ 32 = Z.lxor (a mod 2 ^ 32) (b mod 2 ^ 32).
Proof.
  rewrite <- !Z.land_ones by lia. apply Z.bits_inj'. intros n Hn.
  rewrite Z.land_spec, !Z.lxor_spec, !Z.land_spec.
  by destruct (Z.testbit a n), (Z.testbit b n), (Z.testbit (Z.ones 32) n).
Qed.

Lemma toUint32_range z : 0 ≤ toUint32 z < 2 ^ 32.
Proof. unfold toUint32. apply Z.mod_pos_bound. lia. Qed.

Lemma hashStep_mod h (c : N) :
  (c < 65536)%N →
  toUint32 (hashStep h c)
  = (Z.lxor (toUint32 h) (Z.of_N c) * 16777619) mod 2 ^ 32.
Proof.
  intros Hc. unfold hashStep, imul, bitXor, toUint32.
  rewrite toInt32_mod. change (16777619 mod 2 ^ 32) with 16777619.
  f_equal. f_equal. rewrite lxor_mod, !toInt32_mod.
  f_equal. apply Z.mod_small. lia.
Qed.

Lemma hash_fold (str : jsstring) h :
  Forall (λ c, (c < 65536)%N) str →
  toUint32 (foldl hashStep h str)
  = foldl (λ h c, (Z.lxor h (Z.of_N c) * 16777619) mod 2 ^ 32) (toUint32 h) str.
Proof.
  intros Hstr. revert h. induction Hstr as [|c str Hc _ IH]; intros h; [done|].
  simpl. by rewrite IH, hashStep_mod.
Qed.

Lemma ushr_nonneg a k : 0 ≤ ushr a k.
Proof. unfold ushr. apply Z.shiftr_nonneg, toUint32_range. Qed.

Lemma rem_range a n : 0 ≤ a → 0 < n → 0 ≤ Z.rem a n < n.
Proof. intros Ha Hn. rewrite Z.rem_mod_nonneg by lia. apply Z.mod_pos_bound. lia. Qed.

Lemma hashStr_range (str : jsstring) : 0 ≤ hashStr str < 2 ^ 32.
Proof.
  unfold hashStr, ushr. rewrite Z.shiftr_0_r. apply toUint32_range.
Qed.
End WordFacts.

(** X17. [hashStr] is FNV-1a on 32 bits.  On a string of UTF-16 code units,
    the loop on signed words ([^] and [Math.imul]) and the final [>>> 0]
    compute the hash as it is written on unsigned words, and the result is
    an unsigned 32-bit number. *)
Theorem hashStr_fnv1a (str : jsstring) :
  Forall (λ c, c < 65536) str →
  hashStr str = fnv1a str ∧ (0 ≤ hashStr str < 2 ^ 32)%Z.
Proof.
  intros Hstr. split; [|apply hashStr_range].
  unfold hashStr, ushr, fnv1a. rewrite Z.shiftr_0_r.
  by rewrite hash_fold.
Qed.

Lemma hashStr_fnv1a_witness :
  Forall (λ c, c < 65536) (lit "prog|Programacion|DAM")
  ∧ hashStr (lit "prog|Programacion|DAM") = fnv1a (lit "prog|Programacion|DAM").
Proof.
  assert (Forall (λ c, c < 65536) (lit "prog|Programacion|DAM")) as Hs
    by (repeat constructor).
  split; [exact Hs|]. exact (proj1 (hashStr_fnv1a _ Hs)).
Defined.

(** X18. The numbers [courseImageDataUri] writes into the picture stay in
    fixed ranges, for every course: no remainder is negative, because the
    seed is unsigned. *)
Theorem geometry_ranges (course : Course) :
  let g := geometry (seedOf course) in
  (820 ≤ c1x g < 1140 ∧ 120 ≤ c1y g < 300 ∧ 190 ≤ c1r g < 330
   ∧ 180 ≤ c2x g < 540 ∧ 520 ≤ c2y g < 680 ∧ 210 ≤ c2r g < 370
   ∧ 560 ≤ c3x g < 880 ∧ 320 ≤ c3y g < 540 ∧ 180 ≤ c3r g < 320
   ∧ 470 ≤ w1 g < 560 ∧ 590 ≤ w2 g < 680 ∧ 520 ≤ w3 g < 610)%Z.
Proof.
  pose proof (hashStr_range (courseId course ++ lit "|" ++ courseTitle course ++ lit "|"
                             ++ primaryCycle course)) as Hseed.
  fold (seedOf course) in Hseed. simpl.
  pose proof (rem_range (seedOf course) 320 ltac:(lia) ltac:(lia)).
  pose proof (rem_range (seedOf course) 90 ltac:(lia) ltac:(lia)).
  pose proof (λ k n Hn, rem_range (ushr (seedOf course) k) n (ushr_nonneg _ k) Hn) as Hr.
  pose proof (Hr 8 180 ltac:(lia))%Z. pose proof (Hr 16 140 ltac:(lia))%Z.
  pose proof (Hr 4 360 ltac:(lia))%Z. pose proof (Hr 12 160 ltac:(lia))%Z.
  pose proof (Hr 20 160 ltac:(lia))%Z. pose proof (Hr 6 320 ltac:(lia))%Z.
  pose proof (Hr 14 220 ltac:(lia))%Z. pose proof (Hr 22 140 ltac:(lia))%Z.
  pose proof (Hr 10 90 ltac:(lia))%Z. pose proof (Hr 18 90 ltac:(lia))%Z.
  lia.
Qed.

(** * [parseHash] *)

Section RouteFacts.
Implicit Types (id cid tid hash p : jsstring).

Lemma parts_clean hash p :
  p ∈ filter (λ p, p ≠ []) (splitOn SLASH [] (stripHashPrefix hash)) →
  p ≠ [] ∧ (SLASH ∉ p).
Proof.
  intros [Hne Hp]%list_elem_of_filter. split; [done|]. intros Hs.
  destruct (splitOn_units _ _ _ _ _ Hp Hs) as [_ Hsep].
  by apply Hsep; [apply not_elem_of_nil|].
Qed.

Lemma truthy_nonempty (x : option jsstring) : truthy x = true → ∃ p, x = Some p.
Proof. destruct x as [[|? ?]|]; [done|eauto|done]. Qed.
End RouteFacts.

(** X19. The route of a course reads back as that course: for a non-empty
    identifier without slash, the fragment [openCourse] sets is parsed as the
    course view of that identifier. *)
Theorem parseHash_course (id : jsstring) :
  id ≠ [] → SLASH ∉ id →
  parseHash ([HASH] ++ courseRoute id) = CourseView id.
Proof.
  intros Hne Hs. unfold parseHash.
  change (stripHashPrefix ([HASH] ++ courseRoute id)) with (lit "course" ++ SLASH :: id).
  rewrite splitOn_piece by compute_done. rewrite (splitOn_last _ _ id) by done.
  change (reverse [] ++ lit "course") with (lit "course").
  change (reverse [] ++ id) with id.
  rewrite filter_cons, decide_True by done.
  rewrite filter_cons, decide_True by done. rewrite filter_nil.
  destruct id as [|c id]; [done|]. reflexivity.
Qed.

Lemma parseHash_course_witness :
  lit "python-intro" ≠ [] ∧ (SLASH ∉ lit "python-intro")
  ∧ parseHash ([HASH] ++ courseRoute (lit "python-intro")) = CourseView (lit "python-intro").
Proof.
  assert (SLASH ∉ lit "python-intro") as Hs by compute_done.
  split; [discriminate|]. split; [exact Hs|].
  apply parseHash_course; [discriminate|exact Hs].
Defined.

(** X20. The route of a topic reads back as that topic: for non-empty
    identifiers without slash, the fragment [openTopic] sets is parsed as the
    topic view of that course and topic. *)
Theorem parseHash_topic (cid tid : jsstring) :
  cid ≠ [] → tid ≠ [] → SLASH ∉ cid → SLASH ∉ tid →
  parseHash ([HASH] ++ topicRoute cid tid) = TopicView cid tid.
Proof.
  intros Hc Ht Hsc Hst. unfold parseHash.
  change (stripHashPrefix ([HASH] ++ topicRoute cid tid))
    with (lit "course" ++ SLASH :: cid ++ SLASH :: lit "topic" ++ SLASH :: tid).
  rewrite splitOn_piece by compute_done.
  rewrite splitOn_piece by done.
  rewrite splitOn_piece by compute_done.
  rewrite (splitOn_last _ _ tid) by done.
  change (reverse [] ++ lit "course") with (lit "course").
  change (reverse [] ++ lit "topic") with (lit "topic").
  change (reverse [] ++ cid) with cid. change (reverse [] ++ tid) with tid.
  rewrite filter_cons, decide_True by done.
  rewrite filter_cons, decide_True by done.
  rewrite filter_cons, decide_True by done.
  rewrite filter_cons, decide_True by done. rewrite filter_nil.
  destruct cid as [|c cid]; [done|]. destruct tid as [|t tid]; [done|]. reflexivity.
Qed.

Lemma parseHash_topic_witness :
  lit "python-intro" ≠ [] ∧ lit "t1" ≠ []
  ∧ (SLASH ∉ lit "python-intro") ∧ (SLASH ∉ lit "t1")
  ∧ parseHash ([HASH] ++ topicRoute (lit "python-intro") (lit "t1"))
    = TopicView (lit "python-intro") (lit "t1").
Proof.
  assert (SLASH ∉ lit "python-intro") as Hs by compute_done.
  assert (SLASH ∉ lit "t1") as Ht by compute_done.
  split; [discriminate|]. split; [discriminate|]. split; [exact Hs|]. split; [exact Ht|].
  apply parseHash_topic; [discriminate|discriminate|exact Hs|exact Ht].
Defined.

(** X21. Whatever the fragment, the identifiers [parseHash] returns are
    non-empty and hold no slash. *)
Theorem parseHash_ids_clean (hash : jsstring) :
  match parseHash hash with
  | CatalogView => True
  | CourseView cid => cid ≠ [] ∧ (SLASH ∉ cid)
  | TopicView cid tid => (cid ≠ [] ∧ (SLASH ∉ cid)) ∧ (tid ≠ [] ∧ (SLASH ∉ tid))
  end.
Proof.
  unfold parseHash.
  pose proof (parts_clean hash) as Hclean.
  destruct (filter _ (splitOn SLASH [] (stripHashPrefix hash))) as [|p0 parts] eqn:E; [done|].
  cbn [length Nat.eqb].
  destruct (bool_decide _ && truthy ((p0 :: parts) !! 1%nat)) eqn:H1; [|done].
  apply andb_prop in H1 as [_ H1]. apply truthy_nonempty in H1 as [p1 Hp1].
  assert (p1 ≠ [] ∧ (SLASH ∉ p1)) as Hc1
    by (apply Hclean; by eapply list_elem_of_lookup_2).
  rewrite Hp1. cbn [default from_option].
  destruct (bool_decide _ && truthy ((p0 :: parts) !! 3%nat)) eqn:H3; [|done].
  apply andb_prop in H3 as [_ H3]. apply truthy_nonempty in H3 as [p3 Hp3].
  rewrite Hp3. split; [done|]. apply Hclean. by eapply list_elem_of_lookup_2.
Qed.
